(** * png-metadata: reading and writing PNG metadata chunks

    A shallow embedding of [mod.ts] (chunk extraction and encoding, the
    Latin-1 text-chunk codec and the metadata mapper) together with the
    properties its specification states about it.

    Conventions of the embedding:
    - a [Uint8Array] is a [list byte]; a store into one applies [ToUint8]
      (wrap-around modulo 256, [undefined] and [NaN] become 0);
    - a JavaScript string is the list of its UTF-16 code units;
    - a JavaScript number that the code uses as an integer is a [Z];
    - the typed-array views [uint8]/[uint32]/[int32] over one 4-byte buffer
      are the little-endian views of every platform the library runs on:
      [uint32[0]] is [le_combine] of the four bytes;
    - an exception is a value of [Outcome]; the in-place mutation done by
      [insertMetadata] is explicit state passing: the function returns the
      final contents of the caller's array, also when it throws. *)

From Stdlib Require Import String Ascii ZArith NArith List Lia Bool.
From coqutil Require Import Byte Word.LittleEndianList.
Import ListNotations.
Local Open Scope Z_scope.

(* ================================================================= *)
(** ** JavaScript values used by the library *)

Module JS.

(** A string: its UTF-16 code units. *)
Definition jsstring := list N.

Definition jsstring_eq_dec (s t : jsstring) : {s = t} + {s <> t} :=
  list_eq_dec N.eq_dec s t.

Definition jsstring_eqb (s t : jsstring) : bool :=
  if jsstring_eq_dec s t then true else false.

(** A string literal whose characters are all below U+0100. *)
Definition lit (s : string) : jsstring :=
  map N_of_ascii (list_ascii_of_string s).

(** [String.fromCharCode(b)] for an element [b] of a [Uint8Array]. *)
Definition fromCharCode (b : byte) : N := Byte.to_N b.

(** [s.charCodeAt(i)]: [None] stands for [NaN]. *)
Definition charCodeAt (s : jsstring) (i : nat) : option N := nth_error s i.

(** [ToUint8], the conversion applied by a store into a [Uint8Array]. *)
Definition ToUint8 (z : Z) : byte := byte.of_Z z.

(** Storing a code unit that may be [NaN]. *)
Definition storeCode (c : option N) : byte :=
  match c with
  | Some c => ToUint8 (Z.of_N c)
  | None => Byte.x00
  end.

(** Storing the result of an indexed read that may be [undefined]. *)
Definition storeByte (b : option byte) : byte :=
  match b with
  | Some b => b
  | None => Byte.x00
  end.

(** [ToInt32]: the signed reading of the low 32 bits. *)
Definition ToInt32 (z : Z) : Z := (z + 2 ^ 31) mod 2 ^ 32 - 2 ^ 31.

(** The views over the shared 4-byte scratch buffer. *)
Definition uint32_view (uint8 : list byte) : Z := le_combine uint8.
Definition int32_view (uint8 : list byte) : Z := ToInt32 (le_combine uint8).
(** The bytes [uint8[0..3]] after [uint32[0] = z] or [int32[0] = z]. *)
Definition store32 (z : Z) : list byte := le_split 4 z.

(** [Array.prototype.splice(start, deleteCount, ...items)]. *)
Definition spliceStart {A} (l : list A) (start : Z) : nat :=
  if start <? 0
  then Z.to_nat (Z.max (Z.of_nat (length l) + start) 0)
  else Nat.min (Z.to_nat start) (length l).

Definition splice {A} (l : list A) (start : Z) (deleteCount : nat)
           (items : list A) : list A :=
  let s := spliceStart l start in
  firstn s l ++ items ++ skipn (s + deleteCount) l.

(** *** Objects used as string-keyed maps

    An object is the list of its own enumerable properties in the order
    [Object.keys] lists them: keys that are array indices first, in
    ascending numeric order, then the other keys in the order of their
    creation. *)
Definition JsObject (V : Type) := list (jsstring * V).

Definition Object_keys {V} (o : JsObject V) : list jsstring := map fst o.

Fixpoint obj_get {V} (o : JsObject V) (k : jsstring) : option V :=
  match o with
  | [] => None
  | (k', v) :: o' => if jsstring_eq_dec k k' then Some v else obj_get o' k
  end.

Definition digit (c : N) : option N :=
  if ((48 <=? c) && (c <=? 57))%N then Some (c - 48)%N else None.

Fixpoint digits (acc : N) (s : jsstring) : option N :=
  match s with
  | [] => Some acc
  | c :: s' =>
      match digit c with
      | Some d => digits (10 * acc + d)%N s'
      | None => None
      end
  end.

(** The array index a key denotes: a canonical decimal numeral below
    [2^32 - 1]. *)
Definition arrayIndex (k : jsstring) : option N :=
  match k with
  | [] => None
  | c :: rest =>
      if (N.eqb c 48 && negb (Nat.eqb (length rest) 0))%bool then None
      else if (10 <? length k)%nat then None
      else match digits 0 k with
           | Some n => if (n <? 4294967295)%N then Some n else None
           | None => None
           end
  end.

(** Whether a new key [k] is listed before the existing key [k']. *)
Definition listedBefore (k k' : jsstring) : bool :=
  match arrayIndex k, arrayIndex k' with
  | Some n, Some n' => (n <? n')%N
  | Some _, None => true
  | None, _ => false
  end.

(** [o[k] = v] on an ordinary object (for a key other than
    ["__proto__"]). *)
Fixpoint obj_set {V} (o : JsObject V) (k : jsstring) (v : V) : JsObject V :=
  match o with
  | [] => [(k, v)]
  | (k', v') :: o' =>
      if jsstring_eq_dec k k' then (k, v) :: o'
      else if listedBefore k k' then (k, v) :: (k', v') :: o'
      else (k', v') :: obj_set o' k v
  end.

End JS.
Import JS.

(* ================================================================= *)
(** ** The checksum provider's reference instance

    The library takes CRC-32 from a package outside the repository; the
    development is parametric in it.  [Crc32.crc32] is the CRC-32 of the
    PNG specification (reflected polynomial [0xEDB88320], initial value
    and final complement [0xFFFFFFFF]); it instantiates the parameter
    wherever a concrete file is examined. *)

Module Crc32.

Definition poly : Z := 0xEDB88320.

(** One bit: [(c >>> 1) ^ (poly & -(c & 1))]. *)
Definition shift (c : Z) : Z :=
  Z.lxor (Z.shiftr c 1) (if Z.odd c then poly else 0).

Definition update (c : Z) (b : byte) : Z :=
  Nat.iter 8 shift (Z.lxor c (byte.unsigned b)).

Definition crc32 (msg : list byte) : Z :=
  Z.lxor (fold_left update msg 0xFFFFFFFF) 0xFFFFFFFF.

End Crc32.

(* ================================================================= *)
(** ** Data model *)

Record ChunkData := { name : jsstring; data : list byte }.

Inductive CharacterFault :=
| NotLatin1          (* "Only Latin-1 characters are permitted ..." *)
| NulInKeyword       (* "0x00 character is not permitted in tEXt keywords" *)
| NulInContent       (* "0x00 character is not permitted in tEXt content" *)
| NulInPayload.      (* "Invalid NULL character found. ..." *)

(** The errors the library throws, by the taxonomy of the specification;
    [TypeError] is the runtime's own (a property read on [undefined]). *)
Inductive Error :=
| InvalidHeader (likelyLineEndingCorruption : bool)
| MissingIHDR
| ChecksumMismatch (chunkType : jsstring)
| TruncatedFile
| InvalidCharacter (fault : CharacterFault)
| KeywordTooLong (keyword : jsstring)
| TypeError.

(** How a call ends.  [OutOfFuel] is an artefact of the fuel that bounds
    the scanning loop of [extractChunks]; [extractChunks_terminates] shows
    that no call ends that way. *)
Inductive Outcome (A : Type) :=
| Return (value : A)
| Throw (e : Error)
| OutOfFuel.
Arguments Return {A} value.
Arguments Throw {A} e.
Arguments OutOfFuel {A}.

Definition bind {A B} (m : Outcome A) (k : A -> Outcome B) : Outcome B :=
  match m with
  | Return a => k a
  | Throw e => Throw e
  | OutOfFuel => OutOfFuel
  end.

Notation "x <- m ;; k" := (bind m (fun x => k))
  (at level 61, m at next level, right associativity).

(** The [pHYs] record [{ x, y, unit }]; a [unit] read beyond the end of a
    payload is [undefined]. *)
Record PhysicalResolution := { phys_x : Z; phys_y : Z; phys_unit : option Z }.

(** [RESOLUTION_UNITS]. *)
Definition UNDEFINED : Z := 0.
Definition METERS : Z := 1.
Definition INCHES : Z := 2.

(** [PngMetadata & { clear?: boolean }]: the two interpreted fields, the
    flag that [insertMetadata] reads, and the remaining dynamic fields
    (one per other chunk type met by [readMetadata]). *)
Record PngMetadata := {
  tEXt : option (JsObject jsstring);
  pHYs : option PhysicalResolution;
  clear : bool;
  others : JsObject bool
}.

Definition emptyMetadata : PngMetadata :=
  {| tEXt := None; pHYs := None; clear := false; others := [] |}.

Definition IHDR : jsstring := lit "IHDR".
Definition IDAT : jsstring := lit "IDAT".
Definition IEND : jsstring := lit "IEND".
Definition tEXt_name : jsstring := lit "tEXt".
Definition pHYs_name : jsstring := lit "pHYs".
Definition proto_name : jsstring := lit "__proto__".

(* ================================================================= *)
(** ** Text chunk codec *)

(** [/^[\x00-\xFF]+$/.test(s)] *)
Definition latin1Test (s : jsstring) : bool :=
  negb (Nat.eqb (length s) 0) && forallb (fun c => (c <=? 255)%N) s.

(** One of the two copying loops of [textEncode]:
    [if (!(code = s.charCodeAt(i))) throw ...; output[idx++] = code]. *)
Fixpoint copyCodes (fault : CharacterFault) (s : jsstring)
  : Outcome (list byte) :=
  match s with
  | [] => Return []
  | code :: s' =>
      if (code =? 0)%N then Throw (InvalidCharacter fault)
      else out <- copyCodes fault s' ;; Return (storeCode (Some code) :: out)
  end.

Definition textEncode (keyword content : jsstring) (chunkName : jsstring)
  : Outcome ChunkData :=
  if negb (Nat.eqb (length content) 0)
     && (negb (latin1Test keyword) || negb (latin1Test content))
  then Throw (InvalidCharacter NotLatin1)
  else if (80 <=? length keyword)%nat then Throw (KeywordTooLong keyword)
  else
    k <- copyCodes NulInKeyword keyword ;;
    c <- copyCodes NulInContent content ;;
    Return {| name := chunkName; data := k ++ [Byte.x00] ++ c |}.

(** The loop of [textDecode], from the state [(naming, name, text)]. *)
Fixpoint textDecodeLoop (bin : list byte) (naming : bool)
         (name text : jsstring) : Outcome (jsstring * jsstring) :=
  match bin with
  | [] => Return (name, text)
  | code :: bin' =>
      if naming then
        if negb (Z.eqb (byte.unsigned code) 0)
        then textDecodeLoop bin' true (name ++ [fromCharCode code]) text
        else textDecodeLoop bin' false name text
      else
        if negb (Z.eqb (byte.unsigned code) 0)
        then textDecodeLoop bin' false name (text ++ [fromCharCode code])
        else Throw (InvalidCharacter NulInPayload)
  end.

(** [textDecode] on a payload; the result is [(keyword, text)]. *)
Definition textDecode (bin : list byte) : Outcome (jsstring * jsstring) :=
  textDecodeLoop bin true [] [].

(** [textDecode] on a chunk object: it reads the chunk's [data]. *)
Definition textDecodeChunk (chunk : ChunkData) : Outcome (jsstring * jsstring) :=
  textDecode (data chunk).

(* ================================================================= *)
(** ** Chunk codec *)

(** [data[i]]: [None] is [undefined]. *)
Definition at_index (buf : list byte) (i : nat) : option byte := nth_error buf i.

(** The scratch bytes [uint8[0..3]] after
    [uint8[3] = data[idx++]; uint8[2] = data[idx++];
     uint8[1] = data[idx++]; uint8[0] = data[idx++]]. *)
Definition load4 (buf : list byte) (idx : nat) : list byte :=
  [ storeByte (at_index buf (idx + 3)); storeByte (at_index buf (idx + 2));
    storeByte (at_index buf (idx + 1)); storeByte (at_index buf idx) ].

(** [n] successive stores [chunk[i] = data[idx++]]. *)
Definition copyFrom (buf : list byte) (idx n : nat) : list byte :=
  map (fun i => storeByte (at_index buf (idx + i))) (seq 0 n).

Definition signature : list byte :=
  [Byte.x89; Byte.x50; Byte.x4e; Byte.x47; Byte.x0d; Byte.x0a; Byte.x1a; Byte.x0a].

(** The eight guards that open [extractChunks], in their order. *)
Definition checkHeader (buf : list byte) : Outcome unit :=
  let differs i b :=
    match at_index buf i with
    | Some b' => if Byte.eqb b' b then false else true
    | None => true
    end in
  if differs 0%nat Byte.x89 then Throw (InvalidHeader false)
  else if differs 1%nat Byte.x50 then Throw (InvalidHeader false)
  else if differs 2%nat Byte.x4e then Throw (InvalidHeader false)
  else if differs 3%nat Byte.x47 then Throw (InvalidHeader false)
  else if differs 4%nat Byte.x0d then Throw (InvalidHeader true)
  else if differs 5%nat Byte.x0a then Throw (InvalidHeader true)
  else if differs 6%nat Byte.x1a then Throw (InvalidHeader false)
  else if differs 7%nat Byte.x0a then Throw (InvalidHeader true)
  else Return tt.

Section Codec.

(** The checksum of the external CRC-32 package, as the number its
    hexadecimal digest denotes. *)
Variable crc32 : list byte -> Z.

(** [new DataView(hexToUint8Array(crc32(buf)).buffer).getInt32(0)] *)
Definition crc32buf (buf : list byte) : Z := ToInt32 (crc32 buf).

(** The [while (idx < data.length)] loop of [extractChunks] from the state
    [(idx, chunks)]; the statements after the loop are its last branch.
    Each round moves [idx] forward, so [length buf] rounds always suffice. *)
Fixpoint extractLoop (fuel : nat) (buf : list byte) (idx : nat)
         (chunks : list ChunkData) : Outcome (list ChunkData) :=
  match fuel with
  | O => OutOfFuel
  | S fuel' =>
      if (idx <? length buf)%nat then
        let len := uint32_view (load4 buf idx) + 4 in
        let head := copyFrom buf (idx + 4) 4 in
        let name := map fromCharCode head in
        if Nat.eqb (length chunks) 0 && negb (jsstring_eqb name IHDR)
        then Throw MissingIHDR
        else if jsstring_eqb name IEND
        then Return (chunks ++ [{| name := name; data := [] |}])
        else
          let n := Z.to_nat (len - 4) in
          let chunk := head ++ copyFrom buf (idx + 8) n in
          let crcActual := int32_view (load4 buf (idx + 8 + n)) in
          let crcExpect := crc32buf chunk in
          if negb (crcExpect =? crcActual)
          then Throw (ChecksumMismatch name)
          else
            let chunkData := skipn 4 chunk in
            extractLoop fuel' buf (idx + 8 + n + 4)
                        (chunks ++ [{| name := name; data := chunkData |}])
      else Throw TruncatedFile
  end.

Definition extractChunks (buf : list byte) : Outcome (list ChunkData) :=
  _ <- checkHeader buf ;;
  extractLoop (length buf) buf 8 [].

(** [nameChars]: the four code units read by [name.charCodeAt(0..3)], as
    they are stored into a [Uint8Array]. *)
Definition nameChars (name : jsstring) : list byte :=
  [ storeCode (charCodeAt name 0); storeCode (charCodeAt name 1);
    storeCode (charCodeAt name 2); storeCode (charCodeAt name 3) ].

(** The bytes one round of the second loop of [encodeChunks] writes. *)
Definition encodeChunk (chunk : ChunkData) : list byte :=
  let size := Z.of_nat (length (data chunk)) in
  rev (store32 size)
  ++ nameChars (name chunk)
  ++ data chunk
  ++ rev (store32 (crc32buf (nameChars (name chunk) ++ data chunk))).

(** [encodeChunks]: the output array is allocated with the exact total size
    and filled from left to right, index by index; its final contents are
    the concatenation of what each round writes. *)
Definition encodeChunks (chunks : list ChunkData) : list byte :=
  signature ++ flat_map encodeChunk chunks.

End Codec.

(* ================================================================= *)
(** ** Metadata mapper *)

(** An operand read from a [Uint8Array], [undefined] counting as 0 in the
    32-bit integer operations. *)
Definition operand (b : option byte) : Z :=
  match b with
  | Some b => byte.unsigned b
  | None => 0
  end.

(** The 32-bit operators [<<], [>>], [|] and [&]. *)
Definition shl32 (a k : Z) : Z := ToInt32 (Z.shiftl (ToInt32 a) k).
Definition sar32 (a k : Z) : Z := Z.shiftr (ToInt32 a) k.
Definition or32 (a b : Z) : Z := Z.lor (ToInt32 a) (ToInt32 b).
Definition and32 (a b : Z) : Z := Z.land (ToInt32 a) (ToInt32 b).

Definition readUint32 (uint8array : list byte) (offset : nat) : Z :=
  let byte1 := operand (at_index uint8array offset) in
  let byte2 := operand (at_index uint8array (offset + 1)) in
  let byte3 := operand (at_index uint8array (offset + 2)) in
  let byte4 := operand (at_index uint8array (offset + 3)) in
  or32 (or32 (or32 (or32 0 (shl32 byte1 24)) (shl32 byte2 16)) (shl32 byte3 8)) byte4.

(** [uint8array[i] = z]; a store beyond the end of a typed array is
    ignored. *)
Fixpoint store (uint8array : list byte) (i : nat) (z : Z) : list byte :=
  match uint8array, i with
  | [], _ => []
  | _ :: rest, O => ToUint8 z :: rest
  | b :: rest, S i' => b :: store rest i' z
  end.

Definition writeUInt32 (uint8array : list byte) (num : Z) (offset : nat)
  : list byte :=
  let a := store uint8array offset (sar32 (and32 num 0xff000000) 24) in
  let a := store a (offset + 1) (sar32 (and32 num 0x00ff0000) 16) in
  let a := store a (offset + 2) (sar32 (and32 num 0x0000ff00) 8) in
  store a (offset + 3) (and32 num 0x000000ff).

(** The body of the [forEach] of [readMetadata]. *)
Definition readChunk (result : PngMetadata) (chunk : ChunkData)
  : Outcome PngMetadata :=
  if jsstring_eqb (name chunk) tEXt_name then
    let t := match tEXt result with Some t => t | None => [] end in
    textChunk <- textDecode (data chunk) ;;
    let '(keyword, text) := textChunk in
    (* an assignment of a string to ["__proto__"] creates no property *)
    let t' := if jsstring_eqb keyword proto_name then t
              else obj_set t keyword text in
    Return {| tEXt := Some t'; pHYs := pHYs result;
              clear := clear result; others := others result |}
  else if jsstring_eqb (name chunk) pHYs_name then
    Return {| tEXt := tEXt result;
              pHYs := Some {| phys_x := readUint32 (data chunk) 0;
                              phys_y := readUint32 (data chunk) 4;
                              phys_unit := option_map byte.unsigned
                                             (at_index (data chunk) 8) |};
              clear := clear result; others := others result |}
  else
    Return {| tEXt := tEXt result; pHYs := pHYs result;
              clear := clear result;
              others := obj_set (others result) (name chunk) true |}.

Fixpoint readChunks (result : PngMetadata) (chunks : list ChunkData)
  : Outcome PngMetadata :=
  match chunks with
  | [] => Return result
  | chunk :: rest => r <- readChunk result chunk ;; readChunks r rest
  end.

Definition isCritical (n : jsstring) : bool :=
  jsstring_eqb n IHDR || jsstring_eqb n IDAT || jsstring_eqb n IEND.

(** [for (let i = ...; i--; ) { switch (chunks[i].name) ... }] from a
    non-negative [i]: the test reads [i], then decrements it, so the body
    sees [i - 1]; reading [name] of a missing element is a [TypeError]. *)
Fixpoint clearLoop (i : nat) (chunks : list ChunkData)
  : list ChunkData * Outcome unit :=
  match i with
  | O => (chunks, Return tt)
  | S i' =>
      match nth_error chunks i' with
      | None => (chunks, Throw TypeError)
      | Some c =>
          if isCritical (name c) then clearLoop i' chunks
          else clearLoop i' (splice chunks (Z.of_nat i') 1 [])
      end
  end.

(** The loop started at [chunks.length - 1].  On an empty array that is
    [-1]: the test passes, the body reads [chunks[-2].name] and throws. *)
Definition clearChunks (chunks : list ChunkData)
  : list ChunkData * Outcome unit :=
  match length chunks with
  | O => (chunks, Throw TypeError)
  | S n => clearLoop n chunks
  end.

(** [String(metadata.tEXt[keyword])] *)
Definition textOf (t : JsObject jsstring) (keyword : jsstring) : jsstring :=
  match obj_get t keyword with
  | Some text => text
  | None => lit "undefined"
  end.

(** [for (const keyword of Object.keys(metadata.tEXt))
       chunks.splice(-1, 0, textEncode(keyword, metadata.tEXt[keyword]))] *)
Fixpoint insertTexts (t : JsObject jsstring) (keys : list jsstring)
         (chunks : list ChunkData) : list ChunkData * Outcome unit :=
  match keys with
  | [] => (chunks, Return tt)
  | keyword :: keys' =>
      match textEncode keyword (textOf t keyword) tEXt_name with
      | Return chunk => insertTexts t keys' (splice chunks (-1) 0 [chunk])
      | Throw e => (chunks, Throw e)
      | OutOfFuel => (chunks, OutOfFuel)
      end
  end.

(** The payload built for a [pHYs] record. *)
Definition physPayload (p : PhysicalResolution) : list byte :=
  let data := repeat Byte.x00 9 in
  let data := writeUInt32 data (phys_x p) 0 in
  let data := writeUInt32 data (phys_y p) 4 in
  store data 8 (match phys_unit p with Some u => u | None => 0 end).

(** [chunks.find(c => c.name === "pHYs")] followed by [pHYs.data = data]:
    [None] when [find] returns [undefined]. *)
Fixpoint overwriteFirst (n : jsstring) (payload : list byte)
         (chunks : list ChunkData) : option (list ChunkData) :=
  match chunks with
  | [] => None
  | c :: rest =>
      if jsstring_eqb (name c) n
      then Some ({| name := name c; data := payload |} :: rest)
      else option_map (cons c) (overwriteFirst n payload rest)
  end.

Definition insertPhys (p : PhysicalResolution) (chunks : list ChunkData)
  : list ChunkData :=
  let data := physPayload p in
  match overwriteFirst pHYs_name data chunks with
  | Some chunks' => chunks'
  | None => splice chunks 1 0 [{| name := pHYs_name; data := data |}]
  end.

(** [insertMetadata]: the final contents of [chunks] and how the call
    ended. *)
Definition insertMetadata (chunks : list ChunkData) (metadata : PngMetadata)
  : list ChunkData * Outcome unit :=
  let '(chunks, r) :=
    if clear metadata then clearChunks chunks else (chunks, Return tt) in
  match r with
  | Return _ =>
      let '(chunks, r) :=
        match tEXt metadata with
        | Some t => insertTexts t (Object_keys t) chunks
        | None => (chunks, Return tt)
        end in
      match r with
      | Return _ =>
          match pHYs metadata with
          | Some p => (insertPhys p chunks, Return tt)
          | None => (chunks, Return tt)
          end
      | _ => (chunks, r)
      end
  | _ => (chunks, r)
  end.

Section Mapper.

Variable crc32 : list byte -> Z.

Definition readMetadata (buffer : list byte) : Outcome PngMetadata :=
  chunks <- extractChunks crc32 buffer ;;
  readChunks emptyMetadata chunks.

Definition writeMetadata (buffer : list byte) (metadata : PngMetadata)
  : Outcome (list byte) :=
  chunks <- extractChunks crc32 buffer ;;
  let '(chunks, r) := insertMetadata chunks metadata in
  _ <- r ;;
  Return (encodeChunks crc32 chunks).

End Mapper.

(* ================================================================= *)
(** ** The container format, as the specification describes it

    Section 6 of the specification: after the signature, a file is a run
    of chunks, each stored as a 4-byte big-endian length, a 4-byte type,
    the payload and a 4-byte big-endian checksum.  These definitions say
    when a byte sequence is such a file; they do not use the codec. *)

Record StoredChunk := {
  s_length : list byte;
  s_type : list byte;
  s_payload : list byte;
  s_crc : list byte
}.

Definition stored_bytes (s : StoredChunk) : list byte :=
  s_length s ++ s_type s ++ s_payload s ++ s_crc s.

(** The unsigned number a big-endian byte string denotes. *)
Definition be_value (bs : list byte) : Z := le_combine (rev bs).

Definition type_name (s : StoredChunk) : jsstring := map fromCharCode (s_type s).

(** The three fixed-size fields have four bytes and the length field
    counts the payload. *)
Definition framed (s : StoredChunk) : Prop :=
  length (s_length s) = 4%nat /\ length (s_type s) = 4%nat /\
  length (s_crc s) = 4%nat /\
  be_value (s_length s) = Z.of_nat (length (s_payload s)).

(** The stored checksum is the CRC-32 of type and payload. *)
Definition checksummed (crc32 : list byte -> Z) (s : StoredChunk) : Prop :=
  be_value (s_crc s) = crc32 (s_type s ++ s_payload s) mod 2 ^ 32.

Definition intact (crc32 : list byte -> Z) (s : StoredChunk) : Prop :=
  framed s /\ checksummed crc32 s.

(** Invariants (a), (b) and (d) of the container: the first chunk is
    [IHDR], the only [IEND] is the last chunk and has no payload, every
    chunk carries the checksum of its contents. *)
Definition well_formed_chunks (crc32 : list byte -> Z)
           (chunks : list StoredChunk) : Prop :=
  Forall (intact crc32) chunks /\
  exists ihdr body iend,
    chunks = ihdr :: body ++ [iend] /\
    type_name ihdr = IHDR /\
    Forall (fun s => type_name s <> IEND) body /\
    type_name iend = IEND /\ s_payload iend = [].

(** A well-formed PNG byte sequence: the signature, then the chunks, then
    nothing. *)
Definition WellFormedPng (crc32 : list byte -> Z) (buf : list byte) : Prop :=
  exists chunks,
    well_formed_chunks crc32 chunks /\
    buf = signature ++ flat_map stored_bytes chunks.

(** The chunk object a stored chunk is read as. *)
Definition chunk_of (s : StoredChunk) : ChunkData :=
  {| name := type_name s; data := s_payload s |}.

Definition IEND_chunk : ChunkData := {| name := IEND; data := [] |}.

(** Flipping bit [n] of a byte string (bit [n mod 8] of byte [n / 8]). *)
Fixpoint flip_bit (bs : list byte) (n : nat) : list byte :=
  match bs with
  | [] => []
  | b :: rest =>
      if (n <? 8)%nat
      then byte.xor b (byte.of_Z (2 ^ Z.of_nat n)) :: rest
      else b :: flip_bit rest (n - 8)
  end.

(** A stored chunk with bit [n] of its type and payload flipped; length
    field and stored checksum stay as they were. *)
Definition corrupt (s : StoredChunk) (n : nat) : StoredChunk :=
  let m := flip_bit (s_type s ++ s_payload s) n in
  {| s_length := s_length s; s_type := firstn 4 m;
     s_payload := skipn 4 m; s_crc := s_crc s |}.

(** What the specification assumes of the checksum provider in its
    checksum-sensitivity property: no single flipped bit leaves the
    32-bit checksum unchanged. *)
Definition detects_bit_flips (crc32 : list byte -> Z) : Prop :=
  forall msg n, (n < 8 * length msg)%nat ->
    crc32 (flip_bit msg n) mod 2 ^ 32 <> crc32 msg mod 2 ^ 32.

(** The index of the first of the eight leading bytes that differs from
    the signature. *)
Fixpoint firstMismatch (expected : list byte) (buf : list byte) (i : nat)
  : option nat :=
  match expected with
  | [] => None
  | e :: expected' =>
      match at_index buf i with
      | Some b => if Byte.eqb b e then firstMismatch expected' buf (S i)
                  else Some i
      | None => Some i
      end
  end.

(** The low byte of a code unit. *)
Definition lowByte (c : N) : byte := byte.of_Z (Z.of_N c).

(** The chunks [insertMetadata] is to insert for the text entries: one
    encoded [tEXt] chunk per key, in the order of [Object.keys]. *)
Fixpoint encodeEntries (t : JsObject jsstring) (keys : list jsstring)
  : Outcome (list ChunkData) :=
  match keys with
  | [] => Return []
  | k :: keys' =>
      c <- textEncode k (textOf t k) tEXt_name ;;
      cs <- encodeEntries t keys' ;;
      Return (c :: cs)
  end.

Definition encodedTexts (metadata : PngMetadata) : Outcome (list ChunkData) :=
  match tEXt metadata with
  | Some t => encodeEntries t (Object_keys t)
  | None => Return []
  end.

(** A chunk list as [extractChunks] produces them. *)
Definition encodable (c : ChunkData) : Prop :=
  (exists t, length t = 4%nat /\ name c = map fromCharCode t) /\
  Z.of_nat (length (data c)) < 2 ^ 32.

Definition canonical (chunks : list ChunkData) : Prop :=
  exists first body,
    chunks = first :: body ++ [IEND_chunk] /\
    name first = IHDR /\
    Forall (fun c => name c <> IEND) body /\
    Forall encodable (first :: body).


Definition titleOnly : PngMetadata :=
  {| tEXt := Some (obj_set [] (lit "Title") (lit "x"));
     pHYs := None; clear := false; others := [] |}.

(** The type of the first chunk as the scan reads it (bytes 12 to 15 of
    the buffer, a missing byte reading as 0). *)
Definition firstChunkType (buf : list byte) : jsstring :=
  map fromCharCode (copyFrom buf 12 4).

(** The text-encoding sentence of the specification, read literally for
    one keyword and text: three unconditional failure rules and success
    on every other input. *)
Definition stated_textEncode (keyword content : jsstring) : Prop :=
  ((80 <= length keyword)%nat ->
   textEncode keyword content tEXt_name = Throw (KeywordTooLong keyword))
  /\
  (In 0%N (keyword ++ content) ->
   exists fault,
     textEncode keyword content tEXt_name = Throw (InvalidCharacter fault))
  /\
  (Exists (fun c => (255 < c)%N) (keyword ++ content) -> content <> [] ->
   exists fault,
     textEncode keyword content tEXt_name = Throw (InvalidCharacter fault))
  /\
  ((length keyword < 80)%nat -> ~ In 0%N (keyword ++ content) ->
   ~ (Exists (fun c => (255 < c)%N) (keyword ++ content) /\ content <> []) ->
   textEncode keyword content tEXt_name
   = Return {| name := tEXt_name;
               data := map lowByte keyword ++ [Byte.x00]
                                   ++ map lowByte content |}).

(** What the scan requires of the chunk it reads into an empty list. *)
Definition headed (acc : list ChunkData) (ss : list StoredChunk) : Prop :=
  match acc, ss with
  | [], s :: _ => type_name s = IHDR
  | _, _ => True
  end.

(** The values of the reference checksum's register. *)
Definition word32 (c : Z) : Prop := 0 <= c < 2 ^ 32.

(** The stored form [encodeChunks] gives a chunk object. *)
Definition stored_of (crc32 : list byte -> Z) (c : ChunkData) : StoredChunk :=
  {| s_length := rev (store32 (Z.of_nat (length (data c))));
     s_type := nameChars (name c);
     s_payload := data c;
     s_crc := rev (store32 (crc32buf crc32 (nameChars (name c) ++ data c))) |}.

(** The text chunk [textEncode("Title", "x")] builds. *)
Definition title_chunk : ChunkData :=
  {| name := tEXt_name;
     data := map lowByte (lit "Title") ++ [Byte.x00] ++ map lowByte (lit "x") |}.

(** The mapping built by the assignments [t[k1] = v1; t[k2] = v2; ...] on
    an empty object, and a metadata record made of it. *)
Definition mappingOf (entries : list (jsstring * jsstring)) : JsObject jsstring :=
  fold_left (fun o kv => obj_set o (fst kv) (snd kv)) entries [].

Definition textsOnly (entries : list (jsstring * jsstring)) : PngMetadata :=
  {| tEXt := Some (mappingOf entries); pHYs := None; clear := false;
     others := [] |}.

Definition physOnly (p : PhysicalResolution) : PngMetadata :=
  {| tEXt := None; pHYs := Some p; clear := false; others := [] |}.

(** The nine bytes of a [pHYs] payload: X and Y as big-endian unsigned
    32-bit numbers, then the unit. *)
Definition physBytes (p : PhysicalResolution) : list byte :=
  rev (store32 (phys_x p)) ++ rev (store32 (phys_y p))
  ++ [ToUint8 (match phys_unit p with Some u => u | None => 0 end)].

(* ================================================================= *)
(** ** The scan over an arbitrary buffer

    What the scan of [extractChunks] sees at an index of any buffer,
    complete or not: a byte past the end reads as 0. *)

Definition byteAt (buf : list byte) (i : nat) : byte := nth i buf Byte.x00.

Definition field (buf : list byte) (idx n : nat) : list byte :=
  map (byteAt buf) (seq idx n).

(** The chunk that starts at [idx]: its length field says how many
    payload bytes follow the type. *)
Definition chunkAt (buf : list byte) (idx : nat) : StoredChunk :=
  let len := field buf idx 4 in
  let n := Z.to_nat (be_value len) in
  {| s_length := len;
     s_type := field buf (idx + 4) 4;
     s_payload := field buf (idx + 8) n;
     s_crc := field buf (idx + 8 + n) 4 |}.

(** The scan started at [idx] reaches the end of the buffer without
    meeting [IEND]: every chunk on its way has a type other than [IEND]
    and a stored checksum that matches, the chunk it starts with being
    [IHDR] when [first] is set; the chunk that takes it to the end, or
    beyond, may be cut short by the end of the buffer. *)
Inductive ScanEnds (crc32 : list byte -> Z) (buf : list byte)
  : nat -> bool -> Prop :=
| scan_end (idx : nat) (first : bool) :
    (length buf <= idx)%nat -> ScanEnds crc32 buf idx first
| scan_chunk (idx : nat) (first : bool) :
    (idx < length buf)%nat ->
    (first = true -> type_name (chunkAt buf idx) = IHDR) ->
    type_name (chunkAt buf idx) <> IEND ->
    checksummed crc32 (chunkAt buf idx) ->
    ScanEnds crc32 buf (idx + length (stored_bytes (chunkAt buf idx))) false ->
    ScanEnds crc32 buf idx first.

(** Where [insertMetadata] leaves the encoded text entries: before the
    last chunk of a non-empty sequence; in an empty sequence the first
    entry becomes the last chunk and the others precede it. *)
Definition withTexts (chunks texts : list ChunkData) : list ChunkData :=
  match chunks, texts with
  | [], [] => []
  | [], c :: rest => rest ++ [c]
  | _ :: _, _ => removelast chunks ++ texts ++ skipn (length chunks - 1) chunks
  end.

(** What [insertMetadata] does for the resolution record, from the
    sequence [placed] that holds the text entries to the final sequence
    [out]. *)
Definition withResolution (p : option PhysicalResolution)
           (placed out : list ChunkData) : Prop :=
  match p with
  | None => out = placed
  | Some p =>
      let chunk := {| name := pHYs_name; data := physBytes p |} in
      (forall a c b,
         placed = a ++ c :: b -> name c = pHYs_name ->
         Forall (fun c' => name c' <> pHYs_name) a ->
         out = a ++ chunk :: b)
      /\
      (Forall (fun c' => name c' <> pHYs_name) placed ->
       out = firstn 1 placed ++ chunk :: skipn 1 placed)
  end.

(** The number of 0x00 bytes of a payload. *)
Definition nulCount (payload : list byte) : nat :=
  count_occ Byte.byte_eq_dec payload Byte.x00.

(** A stored [tEXt] chunk whose payload holds at most one 0x00. *)
Definition singleNul (s : StoredChunk) : Prop :=
  type_name s = tEXt_name -> (nulCount (s_payload s) <= 1)%nat.

(* ================================================================= *)
(** ** The sentences of the specification that the code does not meet,
       read literally *)

(** Checksum sensitivity: a flipped bit in the type or payload of a chunk
    of a well-formed file gives [ChecksumMismatch]. *)
Definition stated_checksum_sensitivity (crc32 : list byte -> Z)
           (before after : list StoredChunk) (s : StoredChunk) (n : nat) : Prop :=
  well_formed_chunks crc32 (before ++ s :: after) ->
  (n < 8 * (4 + length (s_payload s)))%nat ->
  exists t,
    extractChunks crc32
      (signature ++ flat_map stored_bytes (before ++ corrupt s n :: after))
    = Throw (ChecksumMismatch t).


(** Whether byte [i] of a buffer differs from the signature. *)
Definition mismatches (buf : list byte) (i : nat) : bool :=
  match at_index buf i, nth_error signature i with
  | Some b, Some e => negb (Byte.eqb b e)
  | _, _ => true
  end.

(** Header rejection: the line-ending diagnosis is given exactly when
    byte 4, 5 or 7 differs. *)
Definition stated_header_rejection (crc32 : list byte -> Z) (buf : list byte)
  : Prop :=
  firstn 8 buf <> signature ->
  extractChunks crc32 buf
  = Throw (InvalidHeader (mismatches buf 4 || mismatches buf 5 || mismatches buf 7)).

(** Text insertion: the entries, in the order of their insertion into the
    mapping, are encoded and placed immediately before the last chunk. *)
Definition stated_text_insertion (chunks : list ChunkData)
           (entries : list (jsstring * jsstring)) : Prop :=
  forall texts,
    map (fun kv => textEncode (fst kv) (snd kv) tEXt_name) entries
    = map Return texts ->
    insertMetadata chunks (textsOnly entries)
    = (removelast chunks ++ texts ++ skipn (length chunks - 1) chunks, Return tt).

(** Resolution insertion without an existing [pHYs] chunk: the new chunk
    is at index 1. *)
Definition stated_phys_insertion (chunks : list ChunkData)
           (p : PhysicalResolution) : Prop :=
  Forall (fun c => name c <> pHYs_name) chunks ->
  nth_error (fst (insertMetadata chunks (physOnly p))) 1
  = Some {| name := pHYs_name; data := physBytes p |}.

(** Insert/read symmetry on every well-formed file. *)
Definition stated_title_symmetry (crc32 : list byte -> Z) (buf : list byte)
  : Prop :=
  WellFormedPng crc32 buf ->
  exists out r t,
    writeMetadata crc32 buf titleOnly = Return out /\
    readMetadata crc32 out = Return r /\
    tEXt r = Some t /\ obj_get t (lit "Title") = Some (lit "x").

(* ================================================================= *)
(** ** Sample files *)

(** A 1x1 RGBA image of 70 bytes: [IHDR], [IDAT], [IEND]. *)
Definition sample_IHDR : StoredChunk :=
  {| s_length := [Byte.x00; Byte.x00; Byte.x00; Byte.x0d];
     s_type := [Byte.x49; Byte.x48; Byte.x44; Byte.x52];
     s_payload := [Byte.x00; Byte.x00; Byte.x00; Byte.x01;
                   Byte.x00; Byte.x00; Byte.x00; Byte.x01;
                   Byte.x08; Byte.x06; Byte.x00; Byte.x00; Byte.x00];
     s_crc := [Byte.x1f; Byte.x15; Byte.xc4; Byte.x89] |}.

Definition sample_IDAT : StoredChunk :=
  {| s_length := [Byte.x00; Byte.x00; Byte.x00; Byte.x0d];
     s_type := [Byte.x49; Byte.x44; Byte.x41; Byte.x54];
     s_payload := [Byte.x78; Byte.xda; Byte.x63; Byte.x64; Byte.x60;
                   Byte.xf8; Byte.x5f; Byte.x0f; Byte.x00; Byte.x02;
                   Byte.x87; Byte.x01; Byte.x80];
     s_crc := [Byte.xeb; Byte.x47; Byte.xba; Byte.x92] |}.

Definition sample_IEND : StoredChunk :=
  {| s_length := [Byte.x00; Byte.x00; Byte.x00; Byte.x00];
     s_type := [Byte.x49; Byte.x45; Byte.x4e; Byte.x44];
     s_payload := [];
     s_crc := [Byte.xae; Byte.x42; Byte.x60; Byte.x82] |}.

Definition sample_stored : list StoredChunk :=
  [sample_IHDR; sample_IDAT; sample_IEND].

Definition sample_png : list byte :=
  signature ++ flat_map stored_bytes sample_stored.

(** Chunk objects for a text entry [Author = me], for a text payload with
    two 0x00 bytes and for a resolution of 2835 pixels per metre. *)
Definition author_chunk : ChunkData :=
  {| name := tEXt_name;
     data := map lowByte (lit "Author") ++ [Byte.x00] ++ map lowByte (lit "me") |}.

Definition doubled_nul_chunk : ChunkData :=
  {| name := tEXt_name; data := [Byte.x61; Byte.x00; Byte.x00] |}.

Definition resolution_chunk : ChunkData :=
  {| name := pHYs_name;
     data := [Byte.x00; Byte.x00; Byte.x0b; Byte.x13;
              Byte.x00; Byte.x00; Byte.x0b; Byte.x13; Byte.x01] |}.

(** The sample image with a resolution and a text entry. *)
Definition tagged_stored : list StoredChunk :=
  [sample_IHDR; stored_of Crc32.crc32 resolution_chunk;
   stored_of Crc32.crc32 author_chunk; sample_IDAT; sample_IEND].

Definition tagged_png : list byte :=
  signature ++ flat_map stored_bytes tagged_stored.

(** The sample image with the text chunk that holds two 0x00 bytes. *)
Definition doubled_nul_stored : list StoredChunk :=
  [sample_IHDR; stored_of Crc32.crc32 doubled_nul_chunk; sample_IDAT;
   sample_IEND].

Definition doubled_nul_png : list byte :=
  signature ++ flat_map stored_bytes doubled_nul_stored.

(** The signature and an [IHDR] chunk of two payload bytes whose last
    checksum byte, a 0x00, is cut off. *)
Definition overrun_png : list byte :=
  signature ++ [Byte.x00; Byte.x00; Byte.x00; Byte.x02;
                Byte.x49; Byte.x48; Byte.x44; Byte.x52;
                Byte.x00; Byte.x7e; Byte.x3d; Byte.xe5; Byte.x80].

(** A header with bytes 0 and 4 damaged. *)
Definition damaged_header : list byte :=
  [Byte.x00; Byte.x50; Byte.x4e; Byte.x47; Byte.x00; Byte.x0a; Byte.x1a; Byte.x0a].

(** Two text entries, assigned in this order, and a resolution. *)
Definition sample_entries : list (jsstring * jsstring) :=
  [(lit "b", lit "x"); (lit "1", lit "y")].

Definition sample_resolution : PhysicalResolution :=
  {| phys_x := 2835; phys_y := 2835; phys_unit := Some METERS |}.

(** Two text entries of which the second, with a code unit above 255,
    does not encode. *)
Definition unencodable_entries : list (jsstring * jsstring) :=
  [(lit "a", lit "x"); (lit "b", [937%N])].

Definition sample_metadata : PngMetadata :=
  {| tEXt := Some (mappingOf sample_entries); pHYs := Some sample_resolution;
     clear := false; others := [] |}.

(* ================================================================= *)
(** ** Tactics for concrete files *)

Ltac by_computation := vm_compute; reflexivity.

Ltac intact_by_computation :=
  split; [split; [|split; [|split]]; by_computation | by_computation].

Ltac other_type := let E := fresh in intros E; vm_compute in E; discriminate E.

Ltac well_formed_by_computation ihdr body iend :=
  split;
  [ repeat (constructor; [intact_by_computation|]); constructor
  | exists ihdr, body, iend;
    split; [reflexivity|]; split; [reflexivity|];
    split; [repeat (constructor; [other_type|]); constructor|];
    split; reflexivity ].

(* ================================================================= *)
(** * Properties *)

(** ** Strings, bytes and 32-bit numbers *)

Lemma jsstring_eqb_eq (s t : jsstring) : jsstring_eqb s t = true <-> s = t.
Proof.
  unfold jsstring_eqb. destruct (jsstring_eq_dec s t); split; congruence.
Qed.

Lemma jsstring_eqb_refl (s : jsstring) : jsstring_eqb s s = true.
Proof. now apply jsstring_eqb_eq. Qed.

Lemma jsstring_eqb_neq (s t : jsstring) : s <> t -> jsstring_eqb s t = false.
Proof.
  intros H. destruct (jsstring_eqb s t) eqn:E; [|reflexivity].
  apply jsstring_eqb_eq in E. contradiction.
Qed.

Lemma fromCharCode_inj (a b : byte) : fromCharCode a = fromCharCode b -> a = b.
Proof. apply byte.to_N_inj. Qed.

Lemma map_fromCharCode_inj (s t : list byte) :
  map fromCharCode s = map fromCharCode t -> s = t.
Proof.
  revert t. induction s as [|a s IH]; intros [|b t] H; try discriminate.
  - reflexivity.
  - simpl in H. injection H as Hab Hst.
    f_equal; [now apply fromCharCode_inj | now apply IH].
Qed.

Lemma storeCode_fromCharCode (b : byte) : storeCode (Some (fromCharCode b)) = b.
Proof. unfold storeCode, ToUint8, fromCharCode. apply byte.of_Z_unsigned. Qed.

Lemma lowByte_fromCharCode (b : byte) : lowByte (fromCharCode b) = b.
Proof. apply storeCode_fromCharCode. Qed.

Lemma fromCharCode_lowByte (c : N) : (c <= 255)%N -> fromCharCode (lowByte c) = c.
Proof.
  intros H. unfold fromCharCode, lowByte.
  apply N2Z.inj. change (Z.of_N (Byte.to_N (byte.of_Z (Z.of_N c))))
    with (byte.unsigned (byte.of_Z (Z.of_N c))).
  rewrite byte.unsigned_of_Z. unfold byte.wrap.
  apply Z.mod_small. change (2 ^ 8) with 256. lia.
Qed.

Lemma nameChars_fromCharCode (t : list byte) :
  length t = 4%nat -> nameChars (map fromCharCode t) = t.
Proof.
  destruct t as [|a [|b [|c [|d [|e t]]]]]; try discriminate. intros _.
  unfold nameChars, charCodeAt. simpl nth_error.
  now rewrite !storeCode_fromCharCode.
Qed.

Lemma ToInt32_mod (a : Z) : ToInt32 a mod 2 ^ 32 = a mod 2 ^ 32.
Proof.
  unfold ToInt32.
  rewrite <- (Zminus_mod_idemp_l ((a + 2 ^ 31) mod 2 ^ 32)), Z.mod_mod by lia.
  rewrite Zminus_mod_idemp_l. f_equal. lia.
Qed.

Lemma ToInt32_eq_iff (a b : Z) :
  ToInt32 a = ToInt32 b <-> a mod 2 ^ 32 = b mod 2 ^ 32.
Proof.
  split; intros H.
  - rewrite <- (ToInt32_mod a), <- (ToInt32_mod b). now rewrite H.
  - unfold ToInt32. f_equal.
    rewrite <- (Zplus_mod_idemp_l a), <- (Zplus_mod_idemp_l b). now rewrite H.
Qed.

Lemma ToInt32_idem (a : Z) : ToInt32 (ToInt32 a) = ToInt32 a.
Proof. apply ToInt32_eq_iff, ToInt32_mod. Qed.

Lemma ToInt32_small (a : Z) : - 2 ^ 31 <= a < 2 ^ 31 -> ToInt32 a = a.
Proof. intros H. unfold ToInt32. rewrite Z.mod_small; lia. Qed.

Lemma be_value_range (bs : list byte) :
  length bs = 4%nat -> 0 <= be_value bs < 2 ^ 32.
Proof.
  intros H. unfold be_value.
  pose proof (le_combine_bound (rev bs)) as B.
  rewrite length_rev, H in B. exact B.
Qed.

Lemma store32_length (z : Z) : length (rev (store32 z)) = 4%nat.
Proof. rewrite length_rev. apply length_le_split. Qed.

Lemma be_value_store32 (z : Z) : be_value (rev (store32 z)) = z mod 2 ^ 32.
Proof.
  unfold be_value, store32. rewrite rev_involutive.
  now rewrite le_combine_split.
Qed.

(** Four big-endian bytes are determined by the number they denote. *)
Lemma store32_be_value (bs : list byte) (z : Z) :
  length bs = 4%nat -> be_value bs = z mod 2 ^ 32 -> rev (store32 z) = bs.
Proof.
  intros L H. rewrite <- (rev_involutive bs). f_equal.
  apply le_combine_inj.
  - unfold store32. now rewrite length_le_split, length_rev.
  - unfold store32. rewrite le_combine_split. symmetry. exact H.
Qed.

(** ** Reading a buffer *)

Lemma at_index_middle (pre xs post : list byte) (i : nat) :
  (i < length xs)%nat ->
  at_index (pre ++ xs ++ post) (length pre + i) = nth_error xs i.
Proof.
  intros H. unfold at_index.
  rewrite nth_error_app2 by lia.
  replace (length pre + i - length pre)%nat with i by lia.
  now rewrite nth_error_app1.
Qed.

Lemma copyFrom_nth (buf : list byte) (idx : nat) (xs : list byte) :
  (forall i, (i < length xs)%nat -> at_index buf (idx + i) = nth_error xs i) ->
  copyFrom buf idx (length xs) = xs.
Proof.
  unfold copyFrom. revert idx.
  induction xs as [|a xs IH]; intros idx H; [reflexivity|].
  simpl length. simpl seq. simpl map.
  rewrite (H 0%nat) by (simpl; lia). simpl. f_equal.
  rewrite <- seq_shift, map_map.
  transitivity (map (fun i => storeByte (at_index buf (S idx + i)))
                    (seq 0 (length xs))).
  - apply map_ext. intros i. f_equal. f_equal. lia.
  - apply IH. intros i Hi. replace (S idx + i)%nat with (idx + S i)%nat by lia.
    rewrite H by (simpl; lia). reflexivity.
Qed.

Lemma copyFrom_middle (pre xs post : list byte) (idx n : nat) :
  idx = length pre -> n = length xs ->
  copyFrom (pre ++ xs ++ post) idx n = xs.
Proof.
  intros -> ->. apply copyFrom_nth. intros i Hi. now apply at_index_middle.
Qed.

Lemma load4_middle (pre xs post : list byte) (idx : nat) :
  idx = length pre -> length xs = 4%nat ->
  load4 (pre ++ xs ++ post) idx = rev xs.
Proof.
  intros -> L.
  destruct xs as [|a [|b [|c [|d [|e xs]]]]]; try discriminate.
  unfold load4.
  rewrite !at_index_middle by (simpl; lia).
  replace (at_index (pre ++ [a; b; c; d] ++ post) (length pre))
    with (nth_error [a; b; c; d] 0).
  - reflexivity.
  - rewrite <- (at_index_middle pre [a; b; c; d] post 0) by (simpl; lia).
    f_equal. lia.
Qed.

Lemma copyFrom_length (buf : list byte) (idx n : nat) :
  length (copyFrom buf idx n) = n.
Proof. unfold copyFrom. now rewrite length_map, length_seq. Qed.

Lemma stored_bytes_length (s : StoredChunk) :
  framed s ->
  length (stored_bytes s) = (12 + length (s_payload s))%nat.
Proof.
  intros (L1 & L2 & L3 & _). unfold stored_bytes.
  rewrite !length_app. lia.
Qed.

Section Scan.

Variable crc32 : list byte -> Z.

(** One round of the scanning loop on a stored chunk whose fields have
    their sizes: the guards in the order of the code. *)
Lemma extractLoop_round (fuel : nat) (pre post : list byte) (s : StoredChunk)
      (acc : list ChunkData) :
  framed s ->
  let buf := pre ++ stored_bytes s ++ post in
  extractLoop crc32 (S fuel) buf (length pre) acc =
    if Nat.eqb (length acc) 0 && negb (jsstring_eqb (type_name s) IHDR)
    then Throw MissingIHDR
    else if jsstring_eqb (type_name s) IEND
    then Return (acc ++ [IEND_chunk])
    else if negb (crc32buf crc32 (s_type s ++ s_payload s)
                  =? ToInt32 (be_value (s_crc s)))
    then Throw (ChecksumMismatch (type_name s))
    else extractLoop crc32 fuel buf (length pre + length (stored_bytes s))
                     (acc ++ [chunk_of s]).
Proof.
  intros F buf. pose proof F as (L1 & L2 & L3 & LV).
  assert (Hlen : (length pre <? length buf)%nat = true).
  { apply Nat.ltb_lt. unfold buf, stored_bytes. rewrite !length_app. lia. }
  assert (H1 : load4 buf (length pre) = rev (s_length s)).
  { unfold buf, stored_bytes. rewrite <- !app_assoc.
    now apply load4_middle. }
  assert (H2 : copyFrom buf (length pre + 4) 4 = s_type s).
  { unfold buf, stored_bytes.
    replace (pre ++ (s_length s ++ s_type s ++ s_payload s ++ s_crc s) ++ post)
      with ((pre ++ s_length s) ++ s_type s ++ (s_payload s ++ s_crc s ++ post))
      by (now rewrite <- !app_assoc).
    apply copyFrom_middle; [rewrite length_app; lia | lia]. }
  assert (H3 : copyFrom buf (length pre + 8) (length (s_payload s)) = s_payload s).
  { unfold buf, stored_bytes.
    replace (pre ++ (s_length s ++ s_type s ++ s_payload s ++ s_crc s) ++ post)
      with ((pre ++ s_length s ++ s_type s) ++ s_payload s ++ (s_crc s ++ post))
      by (now rewrite <- !app_assoc).
    apply copyFrom_middle; [rewrite !length_app; lia | reflexivity]. }
  assert (H4 : load4 buf (length pre + 8 + length (s_payload s)) = rev (s_crc s)).
  { unfold buf, stored_bytes.
    replace (pre ++ (s_length s ++ s_type s ++ s_payload s ++ s_crc s) ++ post)
      with ((pre ++ s_length s ++ s_type s ++ s_payload s) ++ s_crc s ++ post)
      by (now rewrite <- !app_assoc).
    apply load4_middle; [rewrite !length_app; lia | assumption]. }
  cbn [extractLoop]. rewrite Hlen.
  unfold uint32_view, int32_view. rewrite H1, H2.
  change (le_combine (rev (s_length s))) with (be_value (s_length s)).
  rewrite LV.
  replace (Z.to_nat (Z.of_nat (length (s_payload s)) + 4 - 4))
    with (length (s_payload s)) by lia.
  rewrite H3, H4.
  change (map fromCharCode (s_type s)) with (type_name s).
  change (le_combine (rev (s_crc s))) with (be_value (s_crc s)).
  destruct (Nat.eqb (length acc) 0 && negb (jsstring_eqb (type_name s) IHDR));
    [reflexivity|].
  destruct (jsstring_eqb (type_name s) IEND) eqn:EI.
  { apply jsstring_eqb_eq in EI. unfold IEND_chunk. now rewrite EI. }
  destruct (negb (crc32buf crc32 (s_type s ++ s_payload s)
                  =? ToInt32 (be_value (s_crc s)))); [reflexivity|].
  rewrite stored_bytes_length by assumption.
  replace (skipn 4 (s_type s ++ s_payload s)) with (s_payload s).
  - unfold chunk_of. f_equal. lia.
  - rewrite skipn_app, L2, Nat.sub_diag. simpl skipn at 2.
    rewrite <- L2 at 1. now rewrite skipn_all.
Qed.

End Scan.

Section Extraction.

Variable crc32 : list byte -> Z.

Lemma checksummed_accepts (s : StoredChunk) :
  length (s_crc s) = 4%nat ->
  checksummed crc32 s <->
  (crc32buf crc32 (s_type s ++ s_payload s) =? ToInt32 (be_value (s_crc s)))
  = true.
Proof.
  intros L. unfold checksummed, crc32buf. rewrite Z.eqb_eq, ToInt32_eq_iff.
  pose proof (be_value_range _ L) as B.
  split; intros H.
  - rewrite <- H. symmetry. now apply Z.mod_small.
  - rewrite H. symmetry. now apply Z.mod_small.
Qed.

(** A run of intact chunks, none of them [IEND], is read chunk by chunk. *)
Lemma extractLoop_run (ss : list StoredChunk) :
  forall (pre post : list byte) (acc : list ChunkData) (fuel : nat),
  Forall (intact crc32) ss ->
  Forall (fun s => type_name s <> IEND) ss ->
  headed acc ss ->
  let buf := pre ++ flat_map stored_bytes ss ++ post in
  extractLoop crc32 (length ss + fuel) buf (length pre) acc =
  extractLoop crc32 fuel buf (length pre + length (flat_map stored_bytes ss))
              (acc ++ map chunk_of ss).
Proof.
  induction ss as [|s ss IH]; intros pre post acc fuel Hi Hn Hh buf.
  - simpl. now rewrite Nat.add_0_r, app_nil_r.
  - inversion Hi as [|? ? [Hf Hc] Hi']; subst.
    inversion Hn as [|? ? Hs Hn']; subst.
    assert (Eb : buf = pre ++ stored_bytes s ++ (flat_map stored_bytes ss ++ post)).
    { unfold buf. simpl flat_map. now rewrite <- !app_assoc. }
    simpl length. simpl Nat.add. rewrite Eb.
    rewrite extractLoop_round by assumption.
    replace (Nat.eqb (length acc) 0 && negb (jsstring_eqb (type_name s) IHDR))
      with false.
    2:{ destruct acc; simpl in *; [|reflexivity].
        now rewrite Hh, jsstring_eqb_refl. }
    rewrite (jsstring_eqb_neq _ _ Hs).
    destruct Hf as (L1 & L2 & L3 & LV).
    rewrite (proj1 (checksummed_accepts s L3) Hc). cbn [negb].
    replace (pre ++ stored_bytes s ++ flat_map stored_bytes ss ++ post)
      with ((pre ++ stored_bytes s) ++ flat_map stored_bytes ss ++ post)
      by (now rewrite <- app_assoc).
    rewrite <- length_app.
    rewrite IH; try assumption.
    + simpl flat_map. simpl map. rewrite !length_app, <- !app_assoc.
      f_equal. lia.
    + destruct acc; exact I.
Qed.

(** The round that meets [IEND]: nothing after the type is read. *)
Lemma extractLoop_iend (fuel : nat) (pre len4 tail : list byte)
      (acc : list ChunkData) :
  length len4 = 4%nat -> acc <> [] ->
  extractLoop crc32 (S fuel)
              (pre ++ len4 ++ [Byte.x49; Byte.x45; Byte.x4e; Byte.x44] ++ tail)
              (length pre) acc
  = Return (acc ++ [IEND_chunk]).
Proof.
  intros L Hacc.
  set (buf := pre ++ len4 ++ [Byte.x49; Byte.x45; Byte.x4e; Byte.x44] ++ tail).
  assert (Hlen : (length pre <? length buf)%nat = true).
  { apply Nat.ltb_lt. unfold buf. rewrite !length_app. lia. }
  assert (H2 : copyFrom buf (length pre + 4) 4
               = [Byte.x49; Byte.x45; Byte.x4e; Byte.x44]).
  { unfold buf.
    replace (pre ++ len4 ++ [Byte.x49; Byte.x45; Byte.x4e; Byte.x44] ++ tail)
      with ((pre ++ len4) ++ [Byte.x49; Byte.x45; Byte.x4e; Byte.x44] ++ tail)
      by (now rewrite <- app_assoc).
    apply copyFrom_middle; [rewrite length_app; lia | reflexivity]. }
  cbn [extractLoop]. rewrite Hlen, H2.
  replace (Nat.eqb (length acc) 0) with false
    by (destruct acc; [contradiction | reflexivity]).
  reflexivity.
Qed.

(** The loop ends at the end of the buffer. *)
Lemma extractLoop_end (fuel : nat) (buf : list byte) (idx : nat)
      (acc : list ChunkData) :
  (length buf <= idx)%nat ->
  extractLoop crc32 (S fuel) buf idx acc = Throw TruncatedFile.
Proof.
  intros H. cbn [extractLoop].
  now replace (idx <? length buf)%nat with false
    by (symmetry; apply Nat.ltb_ge; exact H).
Qed.

(** No call of the loop exhausts its fuel when started with more rounds
    than bytes are left. *)
Lemma extractLoop_terminates (fuel : nat) :
  forall (buf : list byte) (idx : nat) (acc : list ChunkData),
  (length buf - idx < fuel)%nat ->
  extractLoop crc32 fuel buf idx acc <> OutOfFuel.
Proof.
  induction fuel as [|fuel IH]; intros buf idx acc H; [lia|].
  cbn [extractLoop].
  destruct (idx <? length buf)%nat eqn:E; [|discriminate].
  apply Nat.ltb_lt in E.
  destruct (_ && _); [discriminate|].
  destruct (jsstring_eqb _ IEND); [discriminate|].
  destruct (negb _); [discriminate|].
  apply IH. lia.
Qed.

Lemma checkHeader_signature (rest : list byte) :
  checkHeader (signature ++ rest) = Return tt.
Proof. reflexivity. Qed.

Lemma extractChunks_signature (rest : list byte) :
  extractChunks crc32 (signature ++ rest)
  = extractLoop crc32 (8 + length rest) (signature ++ rest) 8 [].
Proof.
  unfold extractChunks. rewrite checkHeader_signature. cbn [bind].
  now rewrite length_app.
Qed.

(** [extractChunks] always ends: with a chunk list or with an error. *)
Lemma extractChunks_terminates (buf : list byte) :
  extractChunks crc32 buf <> OutOfFuel.
Proof.
  unfold extractChunks.
  destruct (checkHeader buf) as [[]| |] eqn:E; cbn [bind]; try discriminate.
  - apply extractLoop_terminates.
    destruct buf; [discriminate E | simpl; lia].
  - revert E. unfold checkHeader.
    repeat match goal with
           | |- context [if ?b then _ else _] => destruct b
           end; discriminate.
Qed.

End Extraction.

Section ChunkCodec.

Variable crc32 : list byte -> Z.

Lemma encodeChunk_chunk_of (s : StoredChunk) :
  intact crc32 s -> encodeChunk crc32 (chunk_of s) = stored_bytes s.
Proof.
  intros [(L1 & L2 & L3 & LV) Hc].
  unfold encodeChunk, stored_bytes, chunk_of. cbn [name data].
  unfold type_name. rewrite nameChars_fromCharCode by assumption.
  f_equal; [|f_equal; f_equal].
  - apply store32_be_value; [assumption|].
    rewrite LV. symmetry. apply Z.mod_small. rewrite <- LV.
    now apply be_value_range.
  - apply store32_be_value; [assumption|].
    unfold crc32buf. rewrite ToInt32_mod. exact Hc.
Qed.

Lemma encodeChunks_chunk_of (ss : list StoredChunk) :
  Forall (intact crc32) ss ->
  encodeChunks crc32 (map chunk_of ss) = signature ++ flat_map stored_bytes ss.
Proof.
  intros H. unfold encodeChunks. f_equal.
  induction H as [|s ss Hs _ IH]; [reflexivity|].
  cbn [map flat_map]. now rewrite encodeChunk_chunk_of, IH.
Qed.

Lemma run_length (ss : list StoredChunk) :
  Forall (intact crc32) ss ->
  (12 * length ss <= length (flat_map stored_bytes ss))%nat.
Proof.
  induction 1 as [|s ss [Hf _] _ IH]; [simpl; lia|].
  simpl. rewrite length_app, stored_bytes_length by assumption. lia.
Qed.

Lemma IEND_bytes (t : list byte) :
  map fromCharCode t = IEND -> t = [Byte.x49; Byte.x45; Byte.x4e; Byte.x44].
Proof. intros H. now apply map_fromCharCode_inj. Qed.

(** Extraction of a run of intact chunks that [IEND] follows: whatever
    the length field of [IEND] says and whatever comes after its type. *)
Lemma extractChunks_upto_iend (ihdr : StoredChunk) (body : list StoredChunk)
      (len4 tail : list byte) :
  Forall (intact crc32) (ihdr :: body) ->
  type_name ihdr = IHDR ->
  Forall (fun s => type_name s <> IEND) body ->
  length len4 = 4%nat ->
  extractChunks crc32
    (signature ++ flat_map stored_bytes (ihdr :: body)
               ++ len4 ++ [Byte.x49; Byte.x45; Byte.x4e; Byte.x44] ++ tail)
  = Return (map chunk_of (ihdr :: body) ++ [IEND_chunk]).
Proof.
  intros Hi Hh Hb L.
  set (ss := ihdr :: body) in *.
  set (post := len4 ++ [Byte.x49; Byte.x45; Byte.x4e; Byte.x44] ++ tail).
  rewrite extractChunks_signature.
  pose proof (run_length ss Hi) as Hl.
  assert (Hn : Forall (fun s => type_name s <> IEND) ss).
  { constructor; [|assumption]. rewrite Hh. discriminate. }
  replace (8 + length (flat_map stored_bytes ss ++ post))%nat
    with (length ss + S (7 + length (flat_map stored_bytes ss ++ post)
                         - length ss))%nat
    by (rewrite length_app; lia).
  etransitivity;
    [exact (extractLoop_run crc32 ss signature post [] _ Hi Hn Hh)|].
  rewrite <- length_app. unfold post.
  replace (signature ++ flat_map stored_bytes ss
             ++ len4 ++ [Byte.x49; Byte.x45; Byte.x4e; Byte.x44] ++ tail)
    with ((signature ++ flat_map stored_bytes ss)
             ++ len4 ++ [Byte.x49; Byte.x45; Byte.x4e; Byte.x44] ++ tail)
    by (now rewrite <- app_assoc).
  rewrite extractLoop_iend; [reflexivity | assumption | discriminate].
Qed.

(** A well-formed file is read as the list of its chunks. *)
Lemma extractChunks_well_formed (ss : list StoredChunk) :
  well_formed_chunks crc32 ss ->
  extractChunks crc32 (signature ++ flat_map stored_bytes ss)
  = Return (map chunk_of ss).
Proof.
  intros (Hi & ihdr & body & iend & -> & Hh & Hb & He & Hp).
  change (ihdr :: body ++ [iend]) with ((ihdr :: body) ++ [iend]) in *.
  apply Forall_app in Hi as [Hrun Hend].
  assert (Hiend : intact crc32 iend) by now inversion Hend.
  pose proof Hiend as [(L1 & L2 & L3 & LV) _].
  rewrite flat_map_app, map_app.
  change (flat_map stored_bytes [iend]) with (stored_bytes iend ++ []).
  change (map chunk_of [iend]) with [chunk_of iend].
  replace (stored_bytes iend ++ [])
    with (s_length iend ++ [Byte.x49; Byte.x45; Byte.x4e; Byte.x44]
                       ++ s_crc iend)
    by (unfold stored_bytes; now rewrite Hp, (IEND_bytes _ He), app_nil_r).
  replace (chunk_of iend) with IEND_chunk
    by (unfold chunk_of, IEND_chunk; now rewrite He, Hp).
  exact (extractChunks_upto_iend ihdr body (s_length iend)
           (s_crc iend) Hrun Hh Hb L1).
Qed.

Lemma well_formed_intact (ss : list StoredChunk) :
  well_formed_chunks crc32 ss -> Forall (intact crc32) ss.
Proof. now intros [H _]. Qed.

End ChunkCodec.
(** ** The scan over an arbitrary buffer *)

Lemma storeByte_at (buf : list byte) :
  forall i, storeByte (at_index buf i) = byteAt buf i.
Proof.
  unfold at_index, byteAt.
  induction buf as [|b buf IH]; intros [|i]; cbn; auto.
Qed.

Lemma map_seq_from {A} (f : nat -> A) (n : nat) :
  forall idx, map f (seq idx n) = map (fun i => f (idx + i)%nat) (seq 0 n).
Proof.
  induction n as [|n IH]; intros idx; [reflexivity|].
  cbn [seq map]. rewrite Nat.add_0_r. f_equal.
  rewrite IH, <- seq_shift, map_map.
  apply map_ext. intros i. f_equal. lia.
Qed.

Lemma copyFrom_field (buf : list byte) (idx n : nat) :
  copyFrom buf idx n = field buf idx n.
Proof.
  unfold copyFrom, field. rewrite (map_seq_from (byteAt buf)).
  apply map_ext. intros i. apply storeByte_at.
Qed.

Lemma load4_field (buf : list byte) (idx : nat) :
  load4 buf idx = rev (field buf idx 4).
Proof.
  unfold load4, field. rewrite !storeByte_at. cbn [seq map rev app].
  repeat f_equal; lia.
Qed.

Lemma field_length (buf : list byte) (idx n : nat) :
  length (field buf idx n) = n.
Proof. unfold field. now rewrite length_map, length_seq. Qed.

Lemma chunkAt_framed (buf : list byte) (idx : nat) : framed (chunkAt buf idx).
Proof.
  unfold framed, chunkAt. cbn [s_length s_type s_payload s_crc].
  rewrite !field_length.
  split; [reflexivity|]. split; [reflexivity|]. split; [reflexivity|].
  pose proof (be_value_range (field buf idx 4) (field_length _ _ _)). lia.
Qed.

Section ScanAnywhere.

Variable crc32 : list byte -> Z.

(** One round of the loop at any index inside the buffer. *)
Lemma extractLoop_step (fuel : nat) (buf : list byte) (idx : nat)
      (acc : list ChunkData) :
  (idx < length buf)%nat ->
  extractLoop crc32 (S fuel) buf idx acc =
    if Nat.eqb (length acc) 0
       && negb (jsstring_eqb (type_name (chunkAt buf idx)) IHDR)
    then Throw MissingIHDR
    else if jsstring_eqb (type_name (chunkAt buf idx)) IEND
    then Return (acc ++ [IEND_chunk])
    else if negb (crc32buf crc32 (s_type (chunkAt buf idx)
                                   ++ s_payload (chunkAt buf idx))
                  =? ToInt32 (be_value (s_crc (chunkAt buf idx))))
    then Throw (ChecksumMismatch (type_name (chunkAt buf idx)))
    else extractLoop crc32 fuel buf
                     (idx + length (stored_bytes (chunkAt buf idx)))
                     (acc ++ [chunk_of (chunkAt buf idx)]).
Proof.
  intros Hlen. apply Nat.ltb_lt in Hlen.
  pose proof (chunkAt_framed buf idx) as F.
  rewrite (stored_bytes_length _ F).
  cbn [extractLoop]. rewrite Hlen.
  unfold uint32_view, int32_view. rewrite !load4_field, !copyFrom_field.
  change (le_combine (rev (field buf idx 4))) with (be_value (field buf idx 4)).
  replace (Z.to_nat (be_value (field buf idx 4) + 4 - 4))
    with (Z.to_nat (be_value (field buf idx 4))) by lia.
  set (n := Z.to_nat (be_value (field buf idx 4))).
  change (le_combine (rev (field buf (idx + 8 + n) 4)))
    with (be_value (field buf (idx + 8 + n) 4)).
  unfold chunkAt, type_name, chunk_of. cbn [s_length s_type s_payload s_crc].
  fold n.
  destruct (Nat.eqb (length acc) 0
            && negb (jsstring_eqb (map fromCharCode (field buf (idx + 4) 4)) IHDR));
    [reflexivity|].
  destruct (jsstring_eqb (map fromCharCode (field buf (idx + 4) 4)) IEND) eqn:EI.
  { apply jsstring_eqb_eq in EI. unfold IEND_chunk. now rewrite EI. }
  destruct (negb (crc32buf crc32 (field buf (idx + 4) 4 ++ field buf (idx + 8) n)
                  =? ToInt32 (be_value (field buf (idx + 8 + n) 4))));
    [reflexivity|].
  rewrite field_length.
  replace (skipn 4 (field buf (idx + 4) 4 ++ field buf (idx + 8) n))
    with (field buf (idx + 8) n).
  - f_equal. lia.
  - rewrite skipn_app, field_length, Nat.sub_diag.
    rewrite (skipn_all2 (n := 4)) by (rewrite field_length; lia).
    reflexivity.
Qed.

Lemma scan_ends_truncated (buf : list byte) (idx : nat) (first : bool) :
  ScanEnds crc32 buf idx first ->
  forall fuel acc,
  (length buf - idx < fuel)%nat -> (acc = [] -> first = true) ->
  extractLoop crc32 fuel buf idx acc = Throw TruncatedFile.
Proof.
  induction 1 as [idx first Hend | idx first Hin Hh Hn Hc _ IH];
    intros [|fuel] acc Hfuel Hacc; try lia.
  - now apply extractLoop_end.
  - rewrite extractLoop_step by assumption.
    replace (Nat.eqb (length acc) 0
             && negb (jsstring_eqb (type_name (chunkAt buf idx)) IHDR))
      with false.
    2:{ destruct acc; [|reflexivity]. cbn [length Nat.eqb andb].
        now rewrite (Hh (Hacc eq_refl)), jsstring_eqb_refl. }
    rewrite (jsstring_eqb_neq _ _ Hn).
    pose proof (chunkAt_framed buf idx) as F.
    pose proof F as (_ & _ & L3 & _).
    rewrite (proj1 (checksummed_accepts crc32 _ L3) Hc). cbn [negb].
    apply IH.
    + rewrite (stored_bytes_length _ F). lia.
    + intros E. now destruct acc.
Qed.

Lemma truncated_scan_ends (fuel : nat) :
  forall (buf : list byte) (idx : nat) (acc : list ChunkData),
  extractLoop crc32 fuel buf idx acc = Throw TruncatedFile ->
  ScanEnds crc32 buf idx (Nat.eqb (length acc) 0).
Proof.
  induction fuel as [|fuel IH]; intros buf idx acc; [discriminate|].
  destruct (Nat.lt_ge_cases idx (length buf)) as [Hin|Hend];
    [|intros _; now apply scan_end].
  rewrite extractLoop_step by assumption.
  destruct (Nat.eqb (length acc) 0
            && negb (jsstring_eqb (type_name (chunkAt buf idx)) IHDR)) eqn:E1;
    [discriminate|].
  destruct (jsstring_eqb (type_name (chunkAt buf idx)) IEND) eqn:E2;
    [discriminate|].
  destruct (negb (crc32buf crc32 (s_type (chunkAt buf idx)
                                   ++ s_payload (chunkAt buf idx))
                  =? ToInt32 (be_value (s_crc (chunkAt buf idx))))) eqn:E3;
    [discriminate|].
  intros H. apply IH in H.
  replace (Nat.eqb (length (acc ++ [chunk_of (chunkAt buf idx)])) 0)
    with false in H by (rewrite length_app; cbn [length];
                        symmetry; apply Nat.eqb_neq; lia).
  apply scan_chunk; try assumption.
  - intros Hf. rewrite Hf in E1. cbn [andb] in E1.
    apply negb_false_iff in E1. now apply jsstring_eqb_eq.
  - intros E. rewrite E in E2. discriminate E2.
  - pose proof (chunkAt_framed buf idx) as (_ & _ & L3 & _).
    apply (checksummed_accepts crc32 _ L3).
    now apply negb_false_iff in E3.
Qed.

(** Once a chunk has been read, [IHDR] is no longer asked for. *)
Lemma extractLoop_headed (fuel : nat) :
  forall (buf : list byte) (idx : nat) (acc : list ChunkData),
  acc <> [] -> extractLoop crc32 fuel buf idx acc <> Throw MissingIHDR.
Proof.
  induction fuel as [|fuel IH]; intros buf idx acc Hacc; [discriminate|].
  cbn [extractLoop].
  destruct (idx <? length buf)%nat; [|discriminate].
  replace (Nat.eqb (length acc) 0) with false
    by (destruct acc; [contradiction|reflexivity]).
  cbn [andb].
  destruct (jsstring_eqb _ IEND); [discriminate|].
  destruct (negb _); [discriminate|].
  apply IH. now destruct acc.
Qed.

End ScanAnywhere.

Section ChunkCodecProperties.

Variable crc32 : list byte -> Z.

(** C1. Round-trip identity: on every well-formed PNG byte sequence
    (signature, [IHDR] first, a single terminal [IEND] with empty payload,
    every stored checksum the CRC-32 of type and payload, nothing after
    [IEND]) [extractChunks] returns a chunk list and [encodeChunks] turns
    that list back into the same bytes. *)
Theorem roundtrip_identity (buf : list byte) :
  WellFormedPng crc32 buf ->
  exists chunks,
    extractChunks crc32 buf = Return chunks /\
    encodeChunks crc32 chunks = buf.
Proof.
  intros (ss & Hw & ->). exists (map chunk_of ss). split.
  - now apply extractChunks_well_formed.
  - apply encodeChunks_chunk_of. now apply well_formed_intact.
Qed.

(** C9. The checksum of [IEND] is never verified: a buffer that is well
    formed up to the type of [IEND] extracts to the same chunk list
    whatever follows that type (a wrong checksum, no checksum at all,
    trailing bytes) and whatever the length field of [IEND] holds; the
    [IEND] chunk it yields has an empty payload. *)
Theorem iend_checksum_unchecked (ihdr : StoredChunk) (body : list StoredChunk)
        (len4 tail : list byte) :
  Forall (intact crc32) (ihdr :: body) ->
  type_name ihdr = IHDR ->
  Forall (fun s => type_name s <> IEND) body ->
  length len4 = 4%nat ->
  extractChunks crc32
    (signature ++ flat_map stored_bytes (ihdr :: body)
               ++ len4 ++ [Byte.x49; Byte.x45; Byte.x4e; Byte.x44] ++ tail)
  = Return (map chunk_of (ihdr :: body) ++ [{| name := IEND; data := [] |}]).
Proof. apply extractChunks_upto_iend. Qed.

Lemma firstMismatch_found (buf : list byte) :
  firstn 8 buf <> signature -> firstMismatch signature buf 0 <> None.
Proof.
  intros H E. apply H. clear H. revert E.
  unfold signature, firstMismatch, at_index.
  destruct buf as [|b0 [|b1 [|b2 [|b3 [|b4 [|b5 [|b6 [|b7 buf]]]]]]]];
    cbn [nth_error firstn];
    repeat match goal with
           | |- context [Byte.eqb ?a ?b] =>
               let E := fresh in
               destruct (Byte.eqb a b) eqn:E;
               [apply Byte.byte_dec_bl in E; subst a|]
           end; intros; try discriminate; reflexivity.
Qed.

Lemma checkHeader_mismatch (buf : list byte) (i : nat) :
  firstMismatch signature buf 0 = Some i ->
  checkHeader buf
  = Throw (InvalidHeader (Nat.eqb i 4 || Nat.eqb i 5 || Nat.eqb i 7)).
Proof.
  unfold checkHeader, signature, firstMismatch.
  repeat match goal with
         | |- context [at_index buf ?k] =>
             destruct (at_index buf k) as [?b|];
             [match goal with
              | |- context [Byte.eqb ?a ?c] => destruct (Byte.eqb a c)
              end|]
         end; intros H; try discriminate H;
    injection H as <-; reflexivity.
Qed.

Lemma checkHeader_cases (buf : list byte) :
  (firstn 8 buf = signature /\ checkHeader buf = Return tt) \/
  (firstn 8 buf <> signature /\
   exists b, checkHeader buf = Throw (InvalidHeader b)).
Proof.
  destruct (list_eq_dec Byte.byte_eq_dec (firstn 8 buf) signature) as [E|E].
  - left. split; [assumption|].
    rewrite <- (firstn_skipn 8 buf), E. apply checkHeader_signature.
  - right. split; [assumption|].
    pose proof (firstMismatch_found _ E) as H.
    destruct (firstMismatch signature buf 0) as [i|] eqn:Ei; [|contradiction].
    exists (Nat.eqb i 4 || Nat.eqb i 5 || Nat.eqb i 7).
    exact (checkHeader_mismatch _ _ Ei).
Qed.

Lemma signature_length (buf : list byte) :
  firstn 8 buf = signature -> (8 <= length buf)%nat.
Proof.
  intros E. apply (f_equal (@length _)) in E.
  rewrite length_firstn in E. change (length signature) with 8%nat in E. lia.
Qed.

(** C5 (as the code has it). Structural rejection.
    (1) A buffer whose first eight bytes are not the signature fails with
        [InvalidHeader]; the guards run in the order of the bytes, so the
        line-ending diagnosis is given exactly when the first byte that
        differs is byte 4, 5 or 7.
    (2) [MissingIHDR] is thrown exactly when the signature is in place, at
        least one byte follows it and the type of the first chunk, as the
        scan reads it, is not [IHDR].
    (3) [TruncatedFile] is thrown exactly when the signature is in place
        and the scan reaches the end of the buffer without meeting [IEND]:
        it passes from chunk to chunk, the first being [IHDR], none being
        [IEND], each with a matching checksum, bytes past the end reading
        as 0, until its index is at or beyond the end.
    (4) In particular a buffer that is the signature followed by a
        (possibly empty) run of intact chunks, none of them [IEND], the
        first being [IHDR], fails with [TruncatedFile]. *)
Theorem structural_rejection (buf : list byte) :
  (firstn 8 buf <> signature ->
   exists i, firstMismatch signature buf 0 = Some i /\
             extractChunks crc32 buf
             = Throw (InvalidHeader (Nat.eqb i 4 || Nat.eqb i 5 || Nat.eqb i 7)))
  /\
  (extractChunks crc32 buf = Throw MissingIHDR <->
   firstn 8 buf = signature /\ (8 < length buf)%nat /\
   firstChunkType buf <> IHDR)
  /\
  (extractChunks crc32 buf = Throw TruncatedFile <->
   firstn 8 buf = signature /\ ScanEnds crc32 buf 8 true)
  /\
  (forall ss, buf = signature ++ flat_map stored_bytes ss ->
   Forall (intact crc32) ss ->
   Forall (fun s => type_name s <> IEND) ss ->
   match ss with s :: _ => type_name s = IHDR | [] => True end ->
   extractChunks crc32 buf = Throw TruncatedFile).
Proof.
  assert (Hloop : firstn 8 buf = signature ->
                  extractChunks crc32 buf
                  = extractLoop crc32 (length buf) buf 8 []).
  { intros Hs. unfold extractChunks.
    destruct (checkHeader_cases buf) as [[_ ->]|[Hn _]];
      [reflexivity | contradiction]. }
  assert (Hbad : firstn 8 buf <> signature ->
                 exists b, extractChunks crc32 buf = Throw (InvalidHeader b)).
  { intros Hn. unfold extractChunks.
    destruct (checkHeader_cases buf) as [[Hs _]|[_ [b ->]]];
      [contradiction | now exists b]. }
  assert (Htype : type_name (chunkAt buf 8) = firstChunkType buf).
  { unfold firstChunkType, type_name, chunkAt. cbn [s_type].
    now rewrite copyFrom_field. }
  split; [|split; [|split]].
  - intros H. apply firstMismatch_found in H.
    destruct (firstMismatch signature buf 0) as [i|] eqn:E; [|contradiction].
    exists i. split; [reflexivity|].
    unfold extractChunks. now rewrite (checkHeader_mismatch _ _ E).
  - split.
    + intros H.
      destruct (list_eq_dec Byte.byte_eq_dec (firstn 8 buf) signature)
        as [Hs|Hn].
      2:{ destruct (Hbad Hn) as [b Hb]. rewrite Hb in H. discriminate H. }
      split; [assumption|].
      rewrite (Hloop Hs) in H. pose proof (signature_length _ Hs) as Hl.
      destruct (length buf) as [|fuel] eqn:El; [lia|].
      destruct (Nat.lt_ge_cases 8 (S fuel)) as [Hin|Hend].
      * split; [assumption|]. rewrite <- El in Hin.
        rewrite extractLoop_step in H by assumption.
        cbn [length Nat.eqb andb] in H. rewrite Htype in H.
        destruct (jsstring_eqb (firstChunkType buf) IHDR) eqn:E1.
        -- exfalso. cbn [negb] in H.
           destruct (jsstring_eqb (firstChunkType buf) IEND);
             [discriminate H|].
           destruct (negb _); [discriminate H|].
           revert H. apply extractLoop_headed. discriminate.
        -- intros E. rewrite E in E1. discriminate E1.
      * rewrite extractLoop_end in H by lia. discriminate H.
    + intros (Hs & Hl & Ht). rewrite (Hloop Hs).
      destruct (length buf) as [|fuel] eqn:El; [lia|]. rewrite <- El in Hl.
      rewrite extractLoop_step by assumption.
      cbn [length Nat.eqb andb]. rewrite Htype.
      now rewrite (jsstring_eqb_neq _ _ Ht).
  - split.
    + intros H.
      destruct (list_eq_dec Byte.byte_eq_dec (firstn 8 buf) signature)
        as [Hs|Hn].
      2:{ destruct (Hbad Hn) as [b Hb]. rewrite Hb in H. discriminate H. }
      split; [assumption|]. rewrite (Hloop Hs) in H.
      exact (truncated_scan_ends crc32 _ _ _ _ H).
    + intros (Hs & Hscan). rewrite (Hloop Hs).
      pose proof (signature_length _ Hs) as Hl.
      apply (scan_ends_truncated crc32 buf 8 true Hscan); [lia | reflexivity].
  - intros ss -> Hi Hn Hh.
    rewrite <- (app_nil_r (flat_map stored_bytes ss)).
    rewrite extractChunks_signature.
    pose proof (run_length crc32 ss Hi) as Hl.
    replace (8 + length (flat_map stored_bytes ss ++ []))%nat
      with (length ss + S (7 + length (flat_map stored_bytes ss ++ [])
                           - length ss))%nat
      by (rewrite length_app; cbn [length]; lia).
    etransitivity;
      [exact (extractLoop_run crc32 ss signature [] [] _ Hi Hn Hh)|].
    apply extractLoop_end. rewrite !length_app. simpl. lia.
Qed.

End ChunkCodecProperties.

(** ** Text chunk codec *)

Lemma copyCodes_spec (fault : CharacterFault) (s : jsstring) :
  copyCodes fault s =
    if existsb (N.eqb 0) s then Throw (InvalidCharacter fault)
    else Return (map lowByte s).
Proof.
  induction s as [|c s IH]; [reflexivity|].
  cbn [copyCodes existsb map]. rewrite N.eqb_sym.
  destruct (N.eqb 0 c); cbn [orb]; [reflexivity|].
  rewrite IH. now destruct (existsb (N.eqb 0) s).
Qed.

Lemma latin1Test_spec (s : jsstring) :
  latin1Test s
  = negb (Nat.eqb (length s) 0) && negb (existsb (fun c => (255 <? c)%N) s).
Proof.
  unfold latin1Test. f_equal.
  induction s as [|c s IH]; [reflexivity|].
  cbn [forallb existsb]. rewrite IH, negb_orb. f_equal.
  now rewrite N.ltb_antisym, negb_involutive.
Qed.

(** The checks of [textEncode], in their order. *)
Lemma textEncode_cases (keyword content chunkName : jsstring) :
  textEncode keyword content chunkName =
    if negb (Nat.eqb (length content) 0)
       && (Nat.eqb (length keyword) 0
           || existsb (fun c => (255 <? c)%N) (keyword ++ content))
    then Throw (InvalidCharacter NotLatin1)
    else if (80 <=? length keyword)%nat
    then Throw (KeywordTooLong keyword)
    else if existsb (N.eqb 0) keyword
    then Throw (InvalidCharacter NulInKeyword)
    else if existsb (N.eqb 0) content
    then Throw (InvalidCharacter NulInContent)
    else Return {| name := chunkName;
                   data := map lowByte keyword ++ [Byte.x00]
                                       ++ map lowByte content |}.
Proof.
  unfold textEncode. rewrite !latin1Test_spec, existsb_app, !copyCodes_spec.
  destruct (Nat.eqb (length content) 0) eqn:Ec;
    destruct (Nat.eqb (length keyword) 0) eqn:Ek;
    destruct (existsb (fun c => (255 <? c)%N) keyword);
    destruct (existsb (fun c => (255 <? c)%N) content);
    cbn [negb andb orb]; try reflexivity;
    destruct (80 <=? length keyword)%nat; try reflexivity;
    destruct (existsb (N.eqb 0) keyword); cbn [bind]; try reflexivity;
    destruct (existsb (N.eqb 0) content); reflexivity.
Qed.

Lemma textEncode_length (keyword content chunkName : jsstring) (c : ChunkData) :
  textEncode keyword content chunkName = Return c ->
  name c = chunkName /\
  length (data c) = (length keyword + 1 + length content)%nat.
Proof.
  rewrite textEncode_cases.
  repeat match goal with
         | |- context [if ?b then _ else _] => destruct b
         end; intros H; try discriminate H.
  injection H as <-. cbn [name data]. split; [reflexivity|].
  rewrite !length_app. cbn [length]. rewrite !length_map. lia.
Qed.

(** C6 (as the code has it). [textEncode] applies its checks in a fixed
    order, and the first that fires decides the error: with a non-empty
    text, an empty keyword or a code unit above 255 in either string gives
    [InvalidCharacter]; otherwise a keyword of 80 or more code units gives
    [KeywordTooLong]; otherwise a 0x00 in the keyword, then in the text,
    gives [InvalidCharacter]; every other input yields a chunk of the
    given type whose payload is the keyword's bytes, one 0x00 and the
    text's bytes, so of length [keyword.length + 1 + text.length]. *)
Theorem textEncode_decision_table (keyword content chunkName : jsstring) :
  (textEncode keyword content chunkName =
    if negb (Nat.eqb (length content) 0)
       && (Nat.eqb (length keyword) 0
           || existsb (fun c => (255 <? c)%N) (keyword ++ content))
    then Throw (InvalidCharacter NotLatin1)
    else if (80 <=? length keyword)%nat
    then Throw (KeywordTooLong keyword)
    else if existsb (N.eqb 0) keyword
    then Throw (InvalidCharacter NulInKeyword)
    else if existsb (N.eqb 0) content
    then Throw (InvalidCharacter NulInContent)
    else Return {| name := chunkName;
                   data := map lowByte keyword ++ [Byte.x00]
                                       ++ map lowByte content |})
  /\
  match textEncode keyword content chunkName with
  | Return chunk =>
      name chunk = chunkName /\
      length (data chunk) = (length keyword + 1 + length content)%nat
  | _ => True
  end.
Proof.
  split; [apply textEncode_cases|].
  destruct (textEncode keyword content chunkName) as [chunk| |] eqn:E;
    [|exact I ..].
  now apply (textEncode_length keyword content chunkName).
Qed.

Lemma unsigned_lowByte (c : N) :
  (c <= 255)%N -> byte.unsigned (lowByte c) = Z.of_N c.
Proof.
  intros H. unfold lowByte. rewrite byte.unsigned_of_Z. unfold byte.wrap.
  apply Z.mod_small. change (2 ^ 8) with 256. lia.
Qed.

Lemma textDecodeLoop_text (bin : list byte) :
  forall name text,
  ~ In Byte.x00 bin ->
  textDecodeLoop bin false name text
  = Return (name, text ++ map fromCharCode bin).
Proof.
  induction bin as [|b bin IH]; intros name text H.
  - cbn. now rewrite app_nil_r.
  - cbn [textDecodeLoop map].
    destruct (byte.unsigned b =? 0) eqn:E.
    + exfalso. apply H. left. apply Z.eqb_eq in E.
      symmetry. now apply byte.unsigned_inj.
    + cbn [negb]. rewrite IH by (intros HI; apply H; now right).
      now rewrite <- app_assoc.
Qed.

Lemma textDecodeLoop_keyword (k rest : list byte) :
  forall name text,
  ~ In Byte.x00 k ->
  textDecodeLoop (k ++ rest) true name text
  = textDecodeLoop rest true (name ++ map fromCharCode k) text.
Proof.
  induction k as [|b k IH]; intros name text H.
  - cbn. now rewrite app_nil_r.
  - cbn [textDecodeLoop map app].
    destruct (byte.unsigned b =? 0) eqn:E.
    + exfalso. apply H. left. apply Z.eqb_eq in E.
      symmetry. now apply byte.unsigned_inj.
    + cbn [negb]. rewrite IH by (intros HI; apply H; now right).
      now rewrite <- app_assoc.
Qed.

Lemma lowBytes_nonzero (s : jsstring) :
  Forall (fun c => (c <= 255)%N) s -> ~ In 0%N s ->
  ~ In Byte.x00 (map lowByte s).
Proof.
  intros Hl Hz Hin. apply in_map_iff in Hin as (c & Hc & Hin).
  apply Hz. rewrite Forall_forall in Hl. specialize (Hl c Hin).
  assert (E : byte.unsigned (lowByte c) = 0) by now rewrite Hc.
  rewrite unsigned_lowByte in E by assumption.
  replace c with 0%N in Hin by lia. exact Hin.
Qed.

Lemma map_fromCharCode_lowByte (s : jsstring) :
  Forall (fun c => (c <= 255)%N) s -> map fromCharCode (map lowByte s) = s.
Proof.
  induction 1 as [|c s Hc _ IH]; [reflexivity|].
  cbn [map]. now rewrite fromCharCode_lowByte, IH.
Qed.

(** C4. Text round trip: for a keyword of 1 to 79 Latin-1 code units and a
    Latin-1 text, neither containing code unit 0, [textEncode] returns a
    chunk and [textDecode] of that chunk returns the keyword and the
    text. *)
Theorem text_roundtrip (keyword text : jsstring) :
  Forall (fun c => (c <= 255)%N) keyword ->
  Forall (fun c => (c <= 255)%N) text ->
  ~ In 0%N keyword -> ~ In 0%N text ->
  (1 <= length keyword <= 79)%nat ->
  exists chunk,
    textEncode keyword text tEXt_name = Return chunk /\
    textDecodeChunk chunk = Return (keyword, text).
Proof.
  intros Lk Lt Zk Zt Hlen.
  exists {| name := tEXt_name;
            data := map lowByte keyword ++ [Byte.x00] ++ map lowByte text |}.
  split.
  - rewrite textEncode_cases.
    replace (Nat.eqb (length keyword) 0) with false
      by (symmetry; apply Nat.eqb_neq; lia).
    replace (existsb (fun c => (255 <? c)%N) (keyword ++ text)) with false.
    2:{ symmetry. apply not_true_is_false. intros E.
        apply existsb_exists in E as (c & Hc & E). apply N.ltb_lt in E.
        apply in_app_or in Hc.
        rewrite Forall_forall in Lk, Lt.
        destruct Hc as [Hc|Hc]; [specialize (Lk c Hc)|specialize (Lt c Hc)];
          lia. }
    rewrite andb_false_r.
    replace (80 <=? length keyword)%nat with false
      by (symmetry; apply Nat.leb_gt; lia).
    replace (existsb (N.eqb 0) keyword) with false.
    2:{ symmetry. apply not_true_is_false. intros E.
        apply existsb_exists in E as (c & Hc & E). apply N.eqb_eq in E.
        subst c. contradiction. }
    replace (existsb (N.eqb 0) text) with false.
    2:{ symmetry. apply not_true_is_false. intros E.
        apply existsb_exists in E as (c & Hc & E). apply N.eqb_eq in E.
        subst c. contradiction. }
    reflexivity.
  - unfold textDecodeChunk, textDecode. cbn [data].
    rewrite textDecodeLoop_keyword by now apply lowBytes_nonzero.
    cbn [app textDecodeLoop]. change (byte.unsigned Byte.x00 =? 0) with true.
    cbn [negb].
    rewrite textDecodeLoop_text by now apply lowBytes_nonzero.
    now rewrite !map_fromCharCode_lowByte.
Qed.

(** C10. A payload without any 0x00 byte decodes without error: the whole
    payload, byte for code unit, is the keyword and the text is empty. *)
Theorem textDecode_without_separator (payload : list byte) :
  ~ In Byte.x00 payload ->
  textDecode payload = Return (map fromCharCode payload, []).
Proof.
  intros H. unfold textDecode.
  rewrite <- (app_nil_r payload) at 1.
  now rewrite textDecodeLoop_keyword.
Qed.

(** ** The reference CRC-32 detects every change confined to one byte *)

Lemma lxor_range (a b : Z) :
  0 <= a < 2 ^ 32 -> 0 <= b < 2 ^ 32 -> 0 <= Z.lxor a b < 2 ^ 32.
Proof.
  intros Ha Hb.
  assert (H0 : 0 <= Z.lxor a b) by (apply Z.lxor_nonneg; lia).
  split; [assumption|].
  destruct (Z.eq_dec (Z.lxor a b) 0) as [E|E]; [rewrite E; reflexivity|].
  apply Z.log2_lt_pow2; [lia|].
  pose proof (Z.log2_lxor a b (proj1 Ha) (proj1 Hb)) as H.
  assert (La : Z.log2 a < 32).
  { destruct (Z.eq_dec a 0) as [->|]; [reflexivity|].
    apply Z.log2_lt_pow2; lia. }
  assert (Lb : Z.log2 b < 32).
  { destruct (Z.eq_dec b 0) as [->|]; [reflexivity|].
    apply Z.log2_lt_pow2; lia. }
  lia.
Qed.

Lemma lxor_cancel_r (a b p : Z) : Z.lxor a p = Z.lxor b p -> a = b.
Proof.
  intros H. apply (f_equal (fun x => Z.lxor x p)) in H.
  now rewrite !Z.lxor_assoc, Z.lxor_nilpotent, !Z.lxor_0_r in H.
Qed.

Lemma lxor_cancel_l (p a b : Z) : Z.lxor p a = Z.lxor p b -> a = b.
Proof. rewrite !(Z.lxor_comm p). apply lxor_cancel_r. Qed.

Lemma byte_in_range (b : byte) : 0 <= byte.unsigned b < 2 ^ 32.
Proof. pose proof (byte.unsigned_range b). change (2 ^ 8) with 256 in *. lia. Qed.

Lemma shift_range (c : Z) : 0 <= c < 2 ^ 32 -> 0 <= Crc32.shift c < 2 ^ 32.
Proof.
  intros H. unfold Crc32.shift. apply lxor_range.
  - rewrite Z.shiftr_div_pow2 by lia. change (2 ^ 1) with 2.
    split; [apply Z.div_pos; lia|].
    apply Z.div_lt_upper_bound; lia.
  - destruct (Z.odd c); unfold Crc32.poly; lia.
Qed.

Lemma shift_top_bit (c : Z) :
  0 <= c < 2 ^ 32 -> Z.testbit (Crc32.shift c) 31 = Z.odd c.
Proof.
  intros H. unfold Crc32.shift.
  rewrite Z.lxor_spec, Z.shiftr_spec by lia.
  replace (Z.testbit c (31 + 1)) with false.
  - now destruct (Z.odd c).
  - symmetry. destruct (Z.eq_dec c 0) as [->|]; [apply Z.testbit_0_l|].
    apply Z.bits_above_log2; [lia|].
    assert (Z.log2 c < 32) by (apply Z.log2_lt_pow2; lia). lia.
Qed.

Lemma shift_inj (c c' : Z) :
  0 <= c < 2 ^ 32 -> 0 <= c' < 2 ^ 32 ->
  Crc32.shift c = Crc32.shift c' -> c = c'.
Proof.
  intros H H' E.
  assert (Eo : Z.odd c = Z.odd c').
  { rewrite <- (shift_top_bit c H), <- (shift_top_bit c' H'). now rewrite E. }
  unfold Crc32.shift in E. rewrite Eo in E. apply lxor_cancel_r in E.
  rewrite <- !Z.div2_spec in E.
  rewrite (Z.div2_odd c), (Z.div2_odd c'). now rewrite E, Eo.
Qed.

Lemma iter_shift_range (k : nat) (c : Z) :
  0 <= c < 2 ^ 32 -> 0 <= Nat.iter k Crc32.shift c < 2 ^ 32.
Proof.
  intros H. induction k as [|k IH]; [exact H|].
  cbn [Nat.iter]. now apply shift_range.
Qed.

Lemma iter_shift_inj (k : nat) (c c' : Z) :
  0 <= c < 2 ^ 32 -> 0 <= c' < 2 ^ 32 ->
  Nat.iter k Crc32.shift c = Nat.iter k Crc32.shift c' -> c = c'.
Proof.
  intros H H'. induction k as [|k IH]; [trivial|].
  cbn [Nat.iter]. intros E. apply IH.
  apply shift_inj; [now apply iter_shift_range .. | exact E].
Qed.

Lemma update_range (c : Z) (b : byte) :
  0 <= c < 2 ^ 32 -> 0 <= Crc32.update c b < 2 ^ 32.
Proof.
  intros H. unfold Crc32.update. apply iter_shift_range.
  apply lxor_range; [exact H | apply byte_in_range].
Qed.

Lemma update_inj (c c' : Z) (b b' : byte) :
  0 <= c < 2 ^ 32 -> 0 <= c' < 2 ^ 32 ->
  Crc32.update c b = Crc32.update c' b' ->
  Z.lxor c (byte.unsigned b) = Z.lxor c' (byte.unsigned b').
Proof.
  intros H H'. unfold Crc32.update.
  apply iter_shift_inj; apply lxor_range; auto using byte_in_range.
Qed.

Section Folding.

Variable step : Z -> byte -> Z.
Variable bounded : Z -> Prop.
Hypothesis step_bounded : forall c b, bounded c -> bounded (step c b).
Hypothesis step_inj :
  forall c c' b, bounded c -> bounded c' -> step c b = step c' b -> c = c'.

Lemma fold_step_bounded (msg : list byte) :
  forall c, bounded c -> bounded (fold_left step msg c).
Proof.
  induction msg as [|b msg IH]; intros c H; [exact H|].
  apply IH, step_bounded, H.
Qed.

Lemma fold_step_inj (msg : list byte) :
  forall c c', bounded c -> bounded c' ->
  fold_left step msg c = fold_left step msg c' -> c = c'.
Proof.
  induction msg as [|b msg IH]; intros c c' H H' E; [exact E|].
  apply (step_inj c c' b H H').
  apply IH; [now apply step_bounded .. | exact E].
Qed.

Lemma fold_step_middle (a c : list byte) (b : byte) (i : Z) :
  fold_left step (a ++ b :: c) i = fold_left step c (step (fold_left step a i) b).
Proof. now rewrite fold_left_app. Qed.

End Folding.

Lemma update_same_byte (c c' : Z) (b : byte) :
  word32 c -> word32 c' -> Crc32.update c b = Crc32.update c' b -> c = c'.
Proof.
  intros H H' E. apply update_inj in E; [|assumption ..].
  now apply lxor_cancel_r in E.
Qed.

Lemma fold_update_range (msg : list byte) (c : Z) :
  word32 c -> word32 (fold_left Crc32.update msg c).
Proof. apply (fold_step_bounded Crc32.update word32 update_range). Qed.

Lemma fold_update_inj (msg : list byte) (c c' : Z) :
  word32 c -> word32 c' ->
  fold_left Crc32.update msg c = fold_left Crc32.update msg c' -> c = c'.
Proof.
  apply (fold_step_inj Crc32.update word32 update_range update_same_byte).
Qed.

Lemma word32_init : word32 0xFFFFFFFF.
Proof. unfold word32. lia. Qed.

Lemma crc32_range (msg : list byte) : 0 <= Crc32.crc32 msg < 2 ^ 32.
Proof.
  unfold Crc32.crc32. apply lxor_range; [|lia].
  apply fold_update_range, word32_init.
Qed.

(** Two messages that differ in one byte have different checksums. *)
Lemma crc32_one_byte (a c : list byte) (b b' : byte) :
  b' <> b -> Crc32.crc32 (a ++ b' :: c) <> Crc32.crc32 (a ++ b :: c).
Proof.
  intros Hb E. apply Hb. unfold Crc32.crc32 in E.
  apply lxor_cancel_r in E.
  rewrite !fold_step_middle in E.
  pose proof (fold_update_range a _ word32_init) as Hs.
  apply fold_update_inj in E; [|now apply update_range ..].
  apply update_inj in E; [|assumption ..].
  apply lxor_cancel_l in E. now apply byte.unsigned_inj.
Qed.

(** ** Flipping one bit *)

Lemma xor_bit_neq (b : byte) (k : nat) :
  (k < 8)%nat -> byte.xor b (byte.of_Z (2 ^ Z.of_nat k)) <> b.
Proof.
  intros Hk E. apply (f_equal byte.unsigned) in E.
  unfold byte.xor in E. rewrite !byte.unsigned_of_Z in E.
  unfold byte.wrap in E.
  apply (f_equal (fun z => Z.testbit z (Z.of_nat k))) in E.
  rewrite Z.mod_pow2_bits_low in E by lia.
  rewrite Z.lxor_spec in E.
  rewrite Z.mod_pow2_bits_low in E by lia.
  rewrite Z.pow2_bits_true in E by lia.
  now destruct (Z.testbit (byte.unsigned b) (Z.of_nat k)).
Qed.

Lemma flip_bit_split (bs : list byte) :
  forall n, (n < 8 * length bs)%nat ->
  exists a b c k,
    bs = a ++ b :: c /\
    flip_bit bs n = a ++ byte.xor b (byte.of_Z (2 ^ Z.of_nat k)) :: c /\
    (k < 8)%nat /\ n = (8 * length a + k)%nat.
Proof.
  induction bs as [|b bs IH]; intros n H; [simpl in H; lia|].
  cbn [flip_bit]. destruct (n <? 8)%nat eqn:E.
  - apply Nat.ltb_lt in E. exists [], b, bs, n.
    split; [reflexivity|]. split; [reflexivity|]. split; [assumption|].
    cbn [length]. lia.
  - apply Nat.ltb_ge in E.
    destruct (IH (n - 8)%nat) as (a & b0 & c & k & -> & Hf & Hk & Hn).
    { cbn [length] in H. lia. }
    exists (b :: a), b0, c, k. rewrite Hf.
    split; [reflexivity|]. split; [reflexivity|]. split; [assumption|].
    cbn [length]. lia.
Qed.

Lemma flip_bit_length (bs : list byte) :
  forall n, length (flip_bit bs n) = length bs.
Proof.
  induction bs as [|b bs IH]; intros n; [reflexivity|].
  cbn [flip_bit]. destruct (n <? 8)%nat; cbn [length]; [reflexivity|].
  now rewrite IH.
Qed.

(** The first [m] bytes change exactly when the bit lies in them. *)
Lemma flip_bit_firstn_neq (bs : list byte) (m n : nat) :
  (n < 8 * length bs)%nat -> (n < 8 * m)%nat ->
  firstn m (flip_bit bs n) <> firstn m bs.
Proof.
  intros H Hm E.
  destruct (flip_bit_split bs n H) as (a & b & c & k & Hb & Hf & Hk & Hn).
  rewrite Hf, Hb in E.
  apply (f_equal (fun l => nth_error l (length a))) in E.
  rewrite !nth_error_firstn in E.
  replace (length a <? m)%nat with true in E
    by (symmetry; apply Nat.ltb_lt; lia).
  rewrite !nth_error_app2, Nat.sub_diag in E by lia.
  cbn in E. injection E as E. now apply xor_bit_neq in E.
Qed.

Lemma flip_bit_firstn_eq (bs : list byte) (m n : nat) :
  (8 * m <= n)%nat -> firstn m (flip_bit bs n) = firstn m bs.
Proof.
  intros Hm.
  destruct (Nat.lt_ge_cases n (8 * length bs)) as [H|H].
  - destruct (flip_bit_split bs n H) as (a & b & c & k & Hb & Hf & Hk & Hn).
    rewrite Hf, Hb. rewrite !firstn_app.
    replace (m - length a)%nat with 0%nat by lia. reflexivity.
  - f_equal. clear Hm. revert n H.
    induction bs as [|b bs IH]; intros n H; [reflexivity|].
    cbn [flip_bit]. cbn [length] in H.
    replace (n <? 8)%nat with false by (symmetry; apply Nat.ltb_ge; lia).
    f_equal. apply IH. lia.
Qed.

Lemma flip_bit_skipn_eq (bs : list byte) (m n : nat) :
  (n < 8 * m)%nat -> skipn m (flip_bit bs n) = skipn m bs.
Proof.
  intros Hm.
  destruct (Nat.lt_ge_cases n (8 * length bs)) as [H|H].
  - destruct (flip_bit_split bs n H) as (a & b & c & k & Hb & Hf & Hk & Hn).
    rewrite Hf, Hb. rewrite !skipn_app.
    replace (m - length a)%nat with (S (m - length a - 1)) by lia.
    reflexivity.
  - f_equal. clear Hm. revert n H.
    induction bs as [|b bs IH]; intros n H; [reflexivity|].
    cbn [flip_bit]. cbn [length] in H.
    replace (n <? 8)%nat with false by (symmetry; apply Nat.ltb_ge; lia).
    f_equal. apply IH. lia.
Qed.

(** The reference CRC-32 meets the assumption of the checksum-sensitivity
    property. *)
Lemma crc32_detects_bit_flips : detects_bit_flips Crc32.crc32.
Proof.
  intros msg n H.
  rewrite !Z.mod_small by apply crc32_range.
  destruct (flip_bit_split msg n H) as (a & b & c & k & -> & -> & Hk & _).
  apply crc32_one_byte. now apply xor_bit_neq.
Qed.

(** ** A flipped bit in a well-formed file *)

Section Corruption.

Variable crc32 : list byte -> Z.

Lemma corrupt_contents (s : StoredChunk) (n : nat) :
  s_type (corrupt s n) ++ s_payload (corrupt s n)
  = flip_bit (s_type s ++ s_payload s) n.
Proof. unfold corrupt. cbn [s_type s_payload]. apply firstn_skipn. Qed.

Lemma corrupt_framed (s : StoredChunk) (n : nat) :
  framed s -> framed (corrupt s n).
Proof.
  intros (L1 & L2 & L3 & LV). unfold framed, corrupt.
  cbn [s_length s_type s_payload s_crc].
  assert (L : length (flip_bit (s_type s ++ s_payload s) n)
              = (4 + length (s_payload s))%nat)
    by (rewrite flip_bit_length, length_app; lia).
  repeat split; try assumption.
  - rewrite length_firstn. lia.
  - rewrite LV, length_skipn, L. f_equal. lia.
Qed.

Lemma corrupt_rejected (s : StoredChunk) (n : nat) :
  detects_bit_flips crc32 -> intact crc32 s ->
  (n < 8 * (4 + length (s_payload s)))%nat ->
  negb (crc32buf crc32 (s_type (corrupt s n) ++ s_payload (corrupt s n))
        =? ToInt32 (be_value (s_crc (corrupt s n)))) = true.
Proof.
  intros Hd [(L1 & L2 & L3 & LV) Hc] Hn.
  rewrite corrupt_contents. apply negb_true_iff, Z.eqb_neq.
  unfold crc32buf, corrupt. cbn [s_crc]. rewrite ToInt32_eq_iff, Hc.
  rewrite Z.mod_mod by lia. apply Hd. rewrite length_app. lia.
Qed.

Lemma corrupt_type_changed (s : StoredChunk) (n : nat) :
  length (s_type s) = 4%nat -> (n < 32)%nat ->
  type_name (corrupt s n) <> type_name s.
Proof.
  intros L Hn E. apply map_fromCharCode_inj in E.
  unfold corrupt in E. cbn [s_type] in E.
  apply (flip_bit_firstn_neq (s_type s ++ s_payload s) 4 n).
  - rewrite length_app. lia.
  - lia.
  - rewrite E, firstn_app, L, Nat.sub_diag, firstn_O, app_nil_r.
    rewrite <- L. now rewrite firstn_all.
Qed.

Lemma corrupt_type_kept (s : StoredChunk) (n : nat) :
  length (s_type s) = 4%nat -> (32 <= n)%nat ->
  type_name (corrupt s n) = type_name s.
Proof.
  intros L Hn. unfold type_name, corrupt. cbn [s_type]. f_equal.
  rewrite flip_bit_firstn_eq by lia.
  rewrite firstn_app, L, Nat.sub_diag, firstn_O, app_nil_r.
  rewrite <- L. now rewrite firstn_all.
Qed.

(** What precedes a chunk of a well-formed file is a run of intact chunks
    without [IEND], which [IHDR] opens. *)
Lemma well_formed_prefix (before after : list StoredChunk) (s : StoredChunk) :
  well_formed_chunks crc32 (before ++ s :: after) ->
  Forall (intact crc32) before /\
  Forall (fun c => type_name c <> IEND) before /\
  match before with c :: _ => type_name c = IHDR | [] => True end /\
  intact crc32 s /\
  (before = [] -> type_name s = IHDR).
Proof.
  intros (Hi & ihdr & body & iend & E & Hh & Hb & He & Hp).
  apply Forall_app in Hi as [Hi1 Hi2].
  assert (Hn : Forall (fun c => type_name c <> IEND) (ihdr :: body)).
  { constructor; [|assumption]. rewrite Hh. discriminate. }
  assert (Hpre : before = firstn (length before) (ihdr :: body)).
  { change (ihdr :: body ++ [iend]) with ((ihdr :: body) ++ [iend]) in E.
    assert (Hl : (length before <= length (ihdr :: body))%nat).
    { apply (f_equal (@length _)) in E. rewrite !length_app in E.
      cbn [length] in E. cbn [length]. lia. }
    apply (f_equal (firstn (length before))) in E.
    rewrite firstn_app, Nat.sub_diag, firstn_O, app_nil_r, firstn_all in E.
    rewrite firstn_app in E.
    replace (length before - length (ihdr :: body))%nat with 0%nat in E by lia.
    now rewrite firstn_O, app_nil_r in E. }
  split; [assumption|]. split; [|split; [|split]].
  - rewrite Hpre. rewrite <- (firstn_skipn (length before)) in Hn.
    now apply Forall_app in Hn.
  - destruct before as [|c before]; [exact I|].
    cbn in Hpre. now injection Hpre as -> _.
  - now inversion Hi2.
  - intros ->. cbn in E. now injection E as -> _.
Qed.

(** C2 (as the code has it). In a well-formed PNG byte sequence, flip one
    bit of the type or payload of any chunk and leave everything else,
    the stored checksum included, as it was.  With a checksum provider
    that detects single flipped bits, [extractChunks] then
    - throws [MissingIHDR] when the bit lies in the type of the first
      chunk: the name check precedes the checksum check;
    - returns the chunks before the damaged one followed by [IEND] when the
      flip turns a later chunk's type into [IEND]: the scan stops there
      without a checksum check;
    - throws [ChecksumMismatch], naming the chunk type as read, in every
      other case: any payload bit, and any type bit of a later chunk. *)
Theorem checksum_sensitivity (before after : list StoredChunk)
        (s : StoredChunk) (n : nat) :
  detects_bit_flips crc32 ->
  well_formed_chunks crc32 (before ++ s :: after) ->
  (n < 8 * (4 + length (s_payload s)))%nat ->
  extractChunks crc32
    (signature ++ flat_map stored_bytes (before ++ corrupt s n :: after))
  = if Nat.eqb (length before) 0 && (n <? 32)%nat
    then Throw MissingIHDR
    else if jsstring_eqb (type_name (corrupt s n)) IEND
    then Return (map chunk_of before ++ [IEND_chunk])
    else Throw (ChecksumMismatch (type_name (corrupt s n))).
Proof.
  intros Hd Hw Hn.
  destruct (well_formed_prefix _ _ _ Hw) as (Hi & Hne & Hh & Hs & Hfirst).
  pose proof Hs as [Hf _]. pose proof Hf as (_ & L2 & _).
  pose proof (corrupt_framed s n Hf) as Hf'.
  rewrite flat_map_app. cbn [flat_map].
  set (post := flat_map stored_bytes after).
  rewrite extractChunks_signature.
  pose proof (run_length crc32 before Hi) as Hl.
  pose proof (stored_bytes_length _ Hf') as Hl'.
  replace (8 + length (flat_map stored_bytes before
                         ++ stored_bytes (corrupt s n) ++ post))%nat
    with (length before
          + S (7 + length (flat_map stored_bytes before
                             ++ stored_bytes (corrupt s n) ++ post)
               - length before))%nat
    by (rewrite !length_app; lia).
  etransitivity;
    [refine (extractLoop_run crc32 before signature _ [] _ Hi Hne _);
     destruct before; [exact I | exact Hh]|].
  rewrite <- length_app. cbn [app].
  replace (signature ++ flat_map stored_bytes before
             ++ stored_bytes (corrupt s n) ++ post)
    with ((signature ++ flat_map stored_bytes before)
             ++ stored_bytes (corrupt s n) ++ post)
    by (now rewrite <- app_assoc).
  rewrite extractLoop_round by assumption.
  rewrite (corrupt_rejected s n Hd Hs Hn), length_map.
  destruct (Nat.eqb (length before) 0) eqn:Eb; cbn [andb].
  - apply Nat.eqb_eq, length_zero_iff_nil in Eb.
    destruct (n <? 32)%nat eqn:En.
    + apply Nat.ltb_lt in En.
      rewrite jsstring_eqb_neq; [reflexivity|].
      rewrite <- (Hfirst Eb). now apply corrupt_type_changed.
    + apply Nat.ltb_ge in En.
      rewrite (corrupt_type_kept s n L2 En), (Hfirst Eb).
      rewrite jsstring_eqb_refl. reflexivity.
  - reflexivity.
Qed.

End Corruption.
(** ** Chunk objects and their stored form *)

Section Canonical.

Variable crc32 : list byte -> Z.

Lemma stored_of_intact (c : ChunkData) :
  Z.of_nat (length (data c)) < 2 ^ 32 -> intact crc32 (stored_of crc32 c).
Proof.
  intros H. split.
  - unfold framed, stored_of. cbn [s_length s_type s_payload s_crc].
    rewrite !store32_length.
    split; [reflexivity|]. split; [reflexivity|]. split; [reflexivity|].
    rewrite be_value_store32. apply Z.mod_small. lia.
  - unfold checksummed, stored_of. cbn [s_length s_type s_payload s_crc].
    rewrite be_value_store32. unfold crc32buf. apply ToInt32_mod.
Qed.

Lemma chunk_of_stored_of (c : ChunkData) :
  encodable c -> chunk_of (stored_of crc32 c) = c.
Proof.
  intros [(t & L & E) _]. destruct c as [n d]. cbn [name] in E. subst n.
  unfold chunk_of, type_name, stored_of. cbn [s_type s_payload name data].
  now rewrite nameChars_fromCharCode.
Qed.

Lemma map_chunk_of_stored_of (cs : list ChunkData) :
  Forall encodable cs -> map chunk_of (map (stored_of crc32) cs) = cs.
Proof.
  induction 1 as [|c cs Hc _ IH]; [reflexivity|].
  cbn [map]. now rewrite chunk_of_stored_of, IH.
Qed.

Lemma encodeChunks_stored_of (cs : list ChunkData) :
  encodeChunks crc32 cs
  = signature ++ flat_map stored_bytes (map (stored_of crc32) cs).
Proof.
  unfold encodeChunks. f_equal.
  induction cs as [|c cs IH]; [reflexivity|].
  cbn [map flat_map]. now rewrite IH.
Qed.

Lemma stored_of_all_intact (cs : list ChunkData) :
  Forall encodable cs -> Forall (intact crc32) (map (stored_of crc32) cs).
Proof.
  induction 1 as [|c cs [_ Hc] _ IH]; constructor;
    [now apply stored_of_intact | assumption].
Qed.

Lemma type_name_stored_of (c : ChunkData) :
  encodable c -> type_name (stored_of crc32 c) = name c.
Proof.
  intros H. change (type_name (stored_of crc32 c))
    with (name (chunk_of (stored_of crc32 c))).
  now rewrite chunk_of_stored_of.
Qed.

(** Encoding a chunk list of the shape [extractChunks] produces and
    extracting the result gives the list back. *)
Lemma canonical_roundtrip (cs : list ChunkData) :
  canonical cs -> extractChunks crc32 (encodeChunks crc32 cs) = Return cs.
Proof.
  intros (first & body & -> & Hh & Hb & He).
  rewrite encodeChunks_stored_of.
  change (first :: body ++ [IEND_chunk]) with ((first :: body) ++ [IEND_chunk]).
  rewrite map_app, flat_map_app.
  rewrite <- (map_chunk_of_stored_of (first :: body) He) at 2.
  cbn [map]. 
  apply (extractChunks_upto_iend crc32 (stored_of crc32 first)
           (map (stored_of crc32) body)
           (rev (store32 0))
           (rev (store32 (crc32buf crc32 (nameChars IEND ++ []))) ++ [])).
  - apply (stored_of_all_intact (first :: body) He).
  - inversion He; subst. now rewrite type_name_stored_of.
  - inversion He as [|? ? _ He']; subst. clear He Hh.
    induction Hb as [|c body Hc _ IH]; [constructor|].
    inversion He' as [|? ? Hc' He'']; subst. cbn [map]. constructor.
    + now rewrite type_name_stored_of.
    + now apply IH.
  - apply store32_length.
Qed.

(** The chunks read so far, at any point of the scan. *)
Lemma extractLoop_canonical (fuel : nat) :
  forall (buf : list byte) (idx : nat) (acc cs : list ChunkData),
  Forall encodable acc ->
  Forall (fun c => name c <> IEND) acc ->
  match acc with c :: _ => name c = IHDR | [] => True end ->
  extractLoop crc32 fuel buf idx acc = Return cs ->
  canonical cs.
Proof.
  induction fuel as [|fuel IH]; intros buf idx acc cs He Hn Hh; [discriminate|].
  cbn [extractLoop].
  destruct (idx <? length buf)%nat; [|discriminate].
  set (head := copyFrom buf (idx + 4) 4).
  set (n := Z.to_nat (uint32_view (load4 buf idx) + 4 - 4)).
  destruct (Nat.eqb (length acc) 0 && negb (jsstring_eqb (map fromCharCode head) IHDR))
    eqn:E1; [discriminate|].
  assert (Hfirst : acc = [] -> map fromCharCode head = IHDR).
  { intros ->. cbn in E1. apply negb_false_iff in E1.
    now apply jsstring_eqb_eq in E1. }
  destruct (jsstring_eqb (map fromCharCode head) IEND) eqn:E2.
  - apply jsstring_eqb_eq in E2. intros H. injection H as <-.
    destruct acc as [|first body].
    + rewrite Hfirst in E2 by reflexivity. discriminate E2.
    + exists first, body. inversion Hn; subst.
      split; [|repeat split; assumption].
      change (first :: body ++ [{| name := map fromCharCode head; data := [] |}]
              = first :: body ++ [IEND_chunk]).
      now rewrite E2.
  - match goal with
    | |- context [if negb (?a =? ?b) then _ else _] => destruct (negb (a =? b))
    end; [discriminate|].
    assert (E2' : map fromCharCode head <> IEND).
    { intros E. rewrite E in E2. discriminate E2. }
    apply IH.
    + apply Forall_app. split; [assumption|]. constructor; [|constructor].
      split; cbn [name data].
      * exists head. split; [apply copyFrom_length | reflexivity].
      * assert (Lh : length head = 4%nat) by apply copyFrom_length.
        rewrite length_skipn, length_app, copyFrom_length, Lh.
        assert (B : 0 <= le_combine (load4 buf idx) < 2 ^ 32)
          by apply (le_combine_bound (load4 buf idx)).
        unfold n, uint32_view. lia.
    + apply Forall_app. split; [assumption|]. now constructor.
    + destruct acc as [|c acc]; [|exact Hh]. cbn. now apply Hfirst.
Qed.

End Canonical.
(** ** Array operations of the metadata mapper *)


Lemma splice_before_last {A} (a : list A) (l x : A) :
  splice (a ++ [l]) (-1) 0 [x] = a ++ [x] ++ [l].
Proof.
  unfold splice, spliceStart. cbn [Z.ltb Z.compare].
  replace (Z.to_nat (Z.max (Z.of_nat (length (a ++ [l])) + -1) 0))
    with (length a) by (rewrite length_app; cbn [length]; lia).
  rewrite Nat.add_0_r.
  rewrite firstn_app, Nat.sub_diag, firstn_O, app_nil_r, firstn_all.
  f_equal. f_equal.
  rewrite skipn_app, Nat.sub_diag, skipn_all. reflexivity.
Qed.

Lemma splice_at_one {A} (h : A) (t : list A) (x : A) :
  splice (h :: t) 1 0 [x] = h :: x :: t.
Proof.
  unfold splice, spliceStart. cbn [Z.ltb Z.compare].
  change (Z.to_nat 1) with 1%nat.
  rewrite Nat.min_l by (cbn [length]; lia). reflexivity.
Qed.



Lemma insertTexts_before_last (t : JsObject jsstring) (keys : list jsstring) :
  forall init last texts,
  encodeEntries t keys = Return texts ->
  insertTexts t keys (init ++ [last]) = (init ++ texts ++ [last], Return tt).
Proof.
  induction keys as [|k keys IH]; intros init last texts H.
  - injection H as <-. reflexivity.
  - cbn [encodeEntries insertTexts] in *.
    destruct (textEncode k (textOf t k) tEXt_name) as [c| |]; try discriminate H.
    cbn [bind] in H.
    destruct (encodeEntries t keys) as [cs| |]; try discriminate H.
    cbn [bind] in H. injection H as <-.
    rewrite splice_before_last, app_assoc, (IH _ _ cs eq_refl).
    now rewrite <- app_assoc.
Qed.

(** ** Reading the chunks *)

Lemma readChunks_app (a b : list ChunkData) :
  forall r,
  readChunks r (a ++ b) = (r' <- readChunks r a ;; readChunks r' b).
Proof.
  induction a as [|c a IH]; intros r; [reflexivity|].
  cbn [app readChunks]. destruct (readChunk r c); cbn [bind]; auto.
Qed.



Lemma obj_get_obj_set {V} (o : JsObject V) (k : jsstring) (v : V) :
  obj_get (obj_set o k v) k = Some v.
Proof.
  induction o as [|[k' v'] o IH]; cbn [obj_set obj_get].
  - destruct (jsstring_eq_dec k k); [reflexivity | contradiction].
  - destruct (jsstring_eq_dec k k') as [E|E].
    + cbn [obj_get]. destruct (jsstring_eq_dec k k); [reflexivity | contradiction].
    + destruct (listedBefore k k'); cbn [obj_get].
      * destruct (jsstring_eq_dec k k); [reflexivity | contradiction].
      * destruct (jsstring_eq_dec k k'); [contradiction | exact IH].
Qed.
(** ** Text entries that do not encode, and empty sequences *)

Lemma insertTexts_stops (t : JsObject jsstring) (ks1 : list jsstring) :
  forall (k : jsstring) (ks2 : list jsstring) init last texts1 e,
  encodeEntries t ks1 = Return texts1 ->
  textEncode k (textOf t k) tEXt_name = Throw e ->
  insertTexts t (ks1 ++ k :: ks2) (init ++ [last])
  = (init ++ texts1 ++ [last], Throw e).
Proof.
  induction ks1 as [|k1 ks1 IH]; intros k ks2 init last texts1 e H He.
  - injection H as <-. cbn [app insertTexts]. now rewrite He.
  - cbn [encodeEntries app insertTexts] in *.
    destruct (textEncode k1 (textOf t k1) tEXt_name) as [c| |];
      try discriminate H.
    cbn [bind] in H.
    destruct (encodeEntries t ks1) as [cs| |]; try discriminate H.
    cbn [bind] in H. injection H as <-.
    rewrite splice_before_last, app_assoc, (IH k ks2 _ _ cs e eq_refl He).
    now rewrite <- app_assoc.
Qed.

Lemma splice_into_empty {A} (x : A) : splice [] (-1) 0 [x] = [x].
Proof. reflexivity. Qed.

Lemma insertTexts_empty (t : JsObject jsstring) (keys : list jsstring)
      (texts : list ChunkData) :
  encodeEntries t keys = Return texts ->
  insertTexts t keys [] = (withTexts [] texts, Return tt).
Proof.
  destruct keys as [|k keys]; intros H.
  - injection H as <-. reflexivity.
  - cbn [encodeEntries insertTexts] in *.
    destruct (textEncode k (textOf t k) tEXt_name) as [c| |];
      try discriminate H.
    cbn [bind] in H.
    destruct (encodeEntries t keys) as [cs| |] eqn:E; try discriminate H.
    cbn [bind] in H. injection H as <-.
    rewrite splice_into_empty.
    exact (insertTexts_before_last t keys [] c cs E).
Qed.

Lemma insertTexts_empty_stops (t : JsObject jsstring) (ks1 : list jsstring)
      (k : jsstring) (ks2 : list jsstring) (texts1 : list ChunkData)
      (e : Error) :
  encodeEntries t ks1 = Return texts1 ->
  textEncode k (textOf t k) tEXt_name = Throw e ->
  insertTexts t (ks1 ++ k :: ks2) [] = (withTexts [] texts1, Throw e).
Proof.
  destruct ks1 as [|k1 ks1]; intros H He.
  - injection H as <-. cbn [app insertTexts]. now rewrite He.
  - cbn [encodeEntries app insertTexts] in *.
    destruct (textEncode k1 (textOf t k1) tEXt_name) as [c| |];
      try discriminate H.
    cbn [bind] in H.
    destruct (encodeEntries t ks1) as [cs| |] eqn:E; try discriminate H.
    cbn [bind] in H. injection H as <-.
    rewrite splice_into_empty.
    exact (insertTexts_stops t ks1 k ks2 [] c cs e E He).
Qed.

Lemma withTexts_before_last (init : list ChunkData) (last : ChunkData)
      (texts : list ChunkData) :
  withTexts (init ++ [last]) texts = init ++ texts ++ [last].
Proof.
  unfold withTexts.
  destruct (init ++ [last]) as [|c l] eqn:E;
    [now destruct init|].
  rewrite <- E, removelast_last, length_app. cbn [length].
  replace (length init + 1 - 1)%nat with (length init) by lia.
  rewrite skipn_app, Nat.sub_diag, skipn_all. reflexivity.
Qed.

Lemma splice_at_index_one {A} (l : list A) (x : A) :
  splice l 1 0 [x] = firstn 1 l ++ x :: skipn 1 l.
Proof. destruct l as [|h t]; [reflexivity | apply splice_at_one]. Qed.

Lemma last_or_nil {A} (l : list A) :
  l = [] \/ exists init last, l = init ++ [last].
Proof.
  induction l as [|x l _] using rev_ind; [now left|].
  right. now exists l, x.
Qed.
(** ** Payloads that decode *)

Lemma nul_byte (b : byte) : (byte.unsigned b =? 0) = true <-> b = Byte.x00.
Proof.
  rewrite Z.eqb_eq. split.
  - intros H. now apply byte.unsigned_inj.
  - now intros ->.
Qed.

Lemma nulCount_cons (b : byte) (bin : list byte) :
  nulCount (b :: bin)
  = if byte.unsigned b =? 0 then S (nulCount bin) else nulCount bin.
Proof.
  unfold nulCount. cbn [count_occ].
  destruct (Byte.byte_eq_dec b Byte.x00) as [->|N]; [reflexivity|].
  destruct (byte.unsigned b =? 0) eqn:E; [|reflexivity].
  apply nul_byte in E. contradiction.
Qed.

(** After the separator: no further 0x00, or the error. *)
Lemma textDecodeLoop_after_separator (bin : list byte) :
  forall name text,
  (nulCount bin = 0%nat ->
   exists kv, textDecodeLoop bin false name text = Return kv) /\
  ((1 <= nulCount bin)%nat ->
   textDecodeLoop bin false name text = Throw (InvalidCharacter NulInPayload)).
Proof.
  induction bin as [|b bin IH]; intros name text.
  - split; [now eexists | cbn; lia].
  - rewrite nulCount_cons. cbn [textDecodeLoop].
    destruct (byte.unsigned b =? 0); cbn [negb].
    + split; [discriminate | reflexivity].
    + apply IH.
Qed.

(** From the start: at most one 0x00, or the error. *)
Lemma textDecodeLoop_from_keyword (bin : list byte) :
  forall name text,
  ((nulCount bin <= 1)%nat ->
   exists kv, textDecodeLoop bin true name text = Return kv) /\
  ((2 <= nulCount bin)%nat ->
   textDecodeLoop bin true name text = Throw (InvalidCharacter NulInPayload)).
Proof.
  induction bin as [|b bin IH]; intros name text.
  - split; [now eexists | cbn; lia].
  - rewrite nulCount_cons. cbn [textDecodeLoop].
    destruct (byte.unsigned b =? 0); cbn [negb].
    + destruct (textDecodeLoop_after_separator bin name text) as [H0 H1].
      split; intros H; [apply H0 | apply H1]; lia.
    + apply IH.
Qed.

Lemma textDecode_single_nul (payload : list byte) :
  (nulCount payload <= 1)%nat -> exists kv, textDecode payload = Return kv.
Proof. apply textDecodeLoop_from_keyword. Qed.

Lemma textDecode_doubled_nul (payload : list byte) :
  (2 <= nulCount payload)%nat ->
  textDecode payload = Throw (InvalidCharacter NulInPayload).
Proof. apply textDecodeLoop_from_keyword. Qed.

Lemma textDecode_outcome (payload : list byte) :
  (exists kv, textDecode payload = Return kv) \/
  textDecode payload = Throw (InvalidCharacter NulInPayload).
Proof.
  destruct (Nat.le_gt_cases (nulCount payload) 1) as [H|H].
  - left. now apply textDecode_single_nul.
  - right. now apply textDecode_doubled_nul.
Qed.

Lemma readChunk_outcome (r : PngMetadata) (c : ChunkData) :
  (exists r', readChunk r c = Return r') \/
  readChunk r c = Throw (InvalidCharacter NulInPayload).
Proof.
  unfold readChunk.
  destruct (jsstring_eqb (name c) tEXt_name).
  - destruct (textDecode_outcome (data c)) as [[[k v] ->]| ->];
      [left; now eexists | now right].
  - destruct (jsstring_eqb (name c) pHYs_name); left; now eexists.
Qed.

Lemma readChunk_single_nul (r : PngMetadata) (c : ChunkData) :
  (name c = tEXt_name -> (nulCount (data c) <= 1)%nat) ->
  exists r', readChunk r c = Return r'.
Proof.
  intros H. unfold readChunk.
  destruct (jsstring_eqb (name c) tEXt_name) eqn:E.
  - apply jsstring_eqb_eq in E.
    destruct (textDecode_single_nul _ (H E)) as [[k v] ->]. now eexists.
  - destruct (jsstring_eqb (name c) pHYs_name); now eexists.
Qed.

Lemma readChunk_doubled_nul (r : PngMetadata) (c : ChunkData) :
  name c = tEXt_name -> (2 <= nulCount (data c))%nat ->
  readChunk r c = Throw (InvalidCharacter NulInPayload).
Proof.
  intros E H. unfold readChunk.
  now rewrite E, jsstring_eqb_refl, textDecode_doubled_nul.
Qed.

Lemma readChunks_single_nul (cs : list ChunkData) :
  Forall (fun c => name c = tEXt_name -> (nulCount (data c) <= 1)%nat) cs ->
  forall r, exists r', readChunks r cs = Return r'.
Proof.
  induction 1 as [|c cs Hc _ IH]; intros r; [now exists r|].
  cbn [readChunks].
  destruct (readChunk_single_nul r c Hc) as [r1 ->]. cbn [bind]. apply IH.
Qed.

Lemma readChunks_doubled_nul (cs : list ChunkData) :
  Exists (fun c => name c = tEXt_name /\ (2 <= nulCount (data c))%nat) cs ->
  forall r, readChunks r cs = Throw (InvalidCharacter NulInPayload).
Proof.
  induction 1 as [c cs [E H]|c cs _ IH]; intros r; cbn [readChunks].
  - now rewrite readChunk_doubled_nul.
  - destruct (readChunk_outcome r c) as [[r1 ->]| ->]; [|reflexivity].
    cbn [bind]. apply IH.
Qed.
(** ** The resolution payload *)

Lemma ToUint8_ext (a b : Z) :
  (forall i, 0 <= i < 8 -> Z.testbit a i = Z.testbit b i) ->
  ToUint8 a = ToUint8 b.
Proof.
  intros H. unfold ToUint8. apply byte.unsigned_inj.
  rewrite !byte.unsigned_of_Z. unfold byte.wrap.
  apply Z.bits_inj'. intros i Hi.
  destruct (Z.lt_ge_cases i 8) as [L|L].
  - rewrite !Z.mod_pow2_bits_low by lia. apply H. lia.
  - rewrite !Z.mod_pow2_bits_high by lia. reflexivity.
Qed.

Lemma testbit_ToInt32 (a j : Z) :
  0 <= j < 32 -> Z.testbit (ToInt32 a) j = Z.testbit a j.
Proof.
  intros H.
  rewrite <- (Z.mod_pow2_bits_low (ToInt32 a) 32 j) by lia.
  rewrite ToInt32_mod. apply Z.mod_pow2_bits_low. lia.
Qed.

Lemma testbit_255 (i : Z) : 0 <= i < 8 -> Z.testbit 255 i = true.
Proof. intros H. change 255 with (Z.ones 8). apply Z.ones_spec_low. lia. Qed.

(** [(num & (0xff << s)) >> s], stored into a byte, is byte [s / 8] of
    [num]. *)
Lemma masked_byte (num s : Z) :
  0 <= s <= 24 ->
  ToUint8 (sar32 (and32 num (Z.shiftl 255 s)) s) = ToUint8 (Z.shiftr num s).
Proof.
  intros Hs. apply ToUint8_ext. intros i Hi.
  unfold sar32, and32.
  rewrite !Z.shiftr_spec by lia.
  rewrite testbit_ToInt32 by lia.
  rewrite Z.land_spec, !testbit_ToInt32 by lia.
  rewrite Z.shiftl_spec by lia.
  replace (i + s - s) with i by lia.
  now rewrite testbit_255, andb_true_r.
Qed.

Lemma low_byte (num : Z) : ToUint8 (and32 num 255) = ToUint8 num.
Proof.
  apply ToUint8_ext. intros i Hi. unfold and32.
  rewrite Z.land_spec, !testbit_ToInt32 by lia.
  now rewrite testbit_255, andb_true_r.
Qed.

Lemma store32_bytes (z : Z) :
  rev (store32 z)
  = [ToUint8 (Z.shiftr z 24); ToUint8 (Z.shiftr z 16); ToUint8 (Z.shiftr z 8);
     ToUint8 z].
Proof.
  unfold store32.
  change (le_split 4 z)
    with [ToUint8 z; ToUint8 (Z.shiftr z 8);
          ToUint8 (Z.shiftr (Z.shiftr z 8) 8);
          ToUint8 (Z.shiftr (Z.shiftr (Z.shiftr z 8) 8) 8)].
  cbn [rev app]. rewrite !Z.shiftr_shiftr by lia. reflexivity.
Qed.

(** The payload [insertMetadata] builds: X and Y big-endian, then the
    unit. *)
Lemma physPayload_bytes (p : PhysicalResolution) : physPayload p = physBytes p.
Proof.
  unfold physPayload, physBytes, writeUInt32.
  cbn [repeat store Nat.add].
  rewrite !store32_bytes. cbn [app].
  change 0xff000000 with (Z.shiftl 255 24).
  change 0x00ff0000 with (Z.shiftl 255 16).
  change 0x0000ff00 with (Z.shiftl 255 8).
  rewrite !masked_byte by lia. rewrite !low_byte. reflexivity.
Qed.

Lemma overwriteFirst_found (n : jsstring) (payload : list byte)
      (a b : list ChunkData) (c : ChunkData) :
  Forall (fun c' => name c' <> n) a -> name c = n ->
  overwriteFirst n payload (a ++ c :: b)
  = Some (a ++ {| name := n; data := payload |} :: b).
Proof.
  intros Ha Hc. induction Ha as [|c' a Hc' _ IH]; cbn [app overwriteFirst].
  - rewrite Hc, jsstring_eqb_refl. reflexivity.
  - rewrite (jsstring_eqb_neq _ _ Hc'), IH. reflexivity.
Qed.

Lemma overwriteFirst_absent (n : jsstring) (payload : list byte)
      (l : list ChunkData) :
  Forall (fun c => name c <> n) l -> overwriteFirst n payload l = None.
Proof.
  induction 1 as [|c l Hc _ IH]; [reflexivity|].
  cbn [overwriteFirst]. now rewrite (jsstring_eqb_neq _ _ Hc), IH.
Qed.

Lemma splice_after_first {A} (l : list A) (x : A) :
  l <> [] -> splice l 1 0 [x] = firstn 1 l ++ x :: skipn 1 l.
Proof.
  destruct l as [|h t]; [contradiction|]. intros _. apply splice_at_one.
Qed.
(** ** The metadata mapper *)

Section MetadataMapper.

Variable crc32 : list byte -> Z.


Lemma extractChunks_canonical (buf : list byte) (cs : list ChunkData) :
  extractChunks crc32 buf = Return cs -> canonical cs.
Proof.
  unfold extractChunks. destruct (checkHeader buf); try discriminate.
  cbn [bind]. apply extractLoop_canonical; constructor.
Qed.



Lemma insertTexts_placed (t : JsObject jsstring) (keys : list jsstring)
      (chunks texts : list ChunkData) :
  encodeEntries t keys = Return texts ->
  insertTexts t keys chunks = (withTexts chunks texts, Return tt).
Proof.
  intros H. destruct (last_or_nil chunks) as [->|(init & last & ->)].
  - now apply insertTexts_empty.
  - rewrite withTexts_before_last. now apply insertTexts_before_last.
Qed.

Lemma insertTexts_placed_stops (t : JsObject jsstring)
      (ks1 : list jsstring) (k : jsstring) (ks2 : list jsstring)
      (chunks texts1 : list ChunkData) (e : Error) :
  encodeEntries t ks1 = Return texts1 ->
  textEncode k (textOf t k) tEXt_name = Throw e ->
  insertTexts t (ks1 ++ k :: ks2) chunks = (withTexts chunks texts1, Throw e).
Proof.
  intros H He. destruct (last_or_nil chunks) as [->|(init & last & ->)].
  - now apply insertTexts_empty_stops.
  - rewrite withTexts_before_last. now apply insertTexts_stops.
Qed.

Lemma withTexts_nothing (chunks : list ChunkData) : withTexts chunks [] = chunks.
Proof.
  destruct (last_or_nil chunks) as [->|(init & last & ->)];
    [reflexivity|].
  now rewrite withTexts_before_last.
Qed.

(** C7 (as the code has it). Without [clear], for every chunk sequence:
    (1) when all text entries encode, [insertMetadata] returns; the
        encoded entries, in the order in which [Object.keys] lists the
        mapping's keys, are then where [withTexts] puts them, and the
        resolution record, when supplied, is applied to that sequence: the
        9-byte payload (X and Y big-endian unsigned 32-bit, the unit in
        the last byte) goes to the first chunk named [pHYs], or, when
        there is none, a new [pHYs] chunk is inserted at index 1 (at
        index 0 when the sequence is empty); nothing else changes;
    (2) when an entry does not encode, the call throws the error of the
        first such entry; the entries before it have been inserted and the
        resolution record has not been applied;
    (3) [withTexts] puts the entries immediately before the last chunk of
        a non-empty sequence; in an empty sequence the first entry ends
        up last and the others precede it in their order. *)
Theorem insertMetadata_without_clear (chunks : list ChunkData)
        (metadata : PngMetadata) :
  clear metadata = false ->
  (forall texts,
     encodedTexts metadata = Return texts ->
     exists out,
       insertMetadata chunks metadata = (out, Return tt) /\
       withResolution (pHYs metadata) (withTexts chunks texts) out)
  /\
  (forall t ks1 k ks2 texts1 e,
     tEXt metadata = Some t ->
     Object_keys t = ks1 ++ k :: ks2 ->
     encodeEntries t ks1 = Return texts1 ->
     textEncode k (textOf t k) tEXt_name = Throw e ->
     insertMetadata chunks metadata = (withTexts chunks texts1, Throw e))
  /\
  (forall init last texts,
     withTexts (init ++ [last]) texts = init ++ texts ++ [last])
  /\
  (forall c texts, withTexts [] (c :: texts) = texts ++ [c])
  /\
  withTexts [] [] = [].
Proof.
  intros Hc.
  split; [|split; [|split; [exact withTexts_before_last|now split]]].
  - intros texts He.
    assert (Ht : match tEXt metadata with
                 | Some t => insertTexts t (Object_keys t) chunks
                 | None => (chunks, Return tt)
                 end = (withTexts chunks texts, Return tt)).
    { unfold encodedTexts in He. destruct (tEXt metadata) as [t|].
      - now apply insertTexts_placed.
      - injection He as <-. now rewrite withTexts_nothing. }
    unfold insertMetadata. rewrite Hc, Ht.
    set (placed := withTexts chunks texts).
    destruct (pHYs metadata) as [p|]; [|now exists placed].
    exists (insertPhys p placed). split; [reflexivity|].
    unfold withResolution, insertPhys. rewrite physPayload_bytes. split.
    + intros a c b E Hn Ha. rewrite E.
      now rewrite overwriteFirst_found.
    + intros Ha. rewrite overwriteFirst_absent by assumption.
      apply splice_at_index_one.
  - intros t ks1 k ks2 texts1 e Ht Hk H1 He.
    unfold insertMetadata. rewrite Hc, Ht, Hk.
    now rewrite (insertTexts_placed_stops t ks1 k ks2 chunks texts1 e H1 He).
Qed.

(** Writing the entry [Title = x] into any buffer that extracts. *)
Lemma write_title (buf : list byte) (cs : list ChunkData) :
  extractChunks crc32 buf = Return cs ->
  exists first body,
    cs = (first :: body) ++ [IEND_chunk] /\
    writeMetadata crc32 buf titleOnly
    = Return (encodeChunks crc32
                ((first :: body) ++ [title_chunk] ++ [IEND_chunk])) /\
    extractChunks crc32
      (encodeChunks crc32 ((first :: body) ++ [title_chunk] ++ [IEND_chunk]))
    = Return ((first :: body) ++ [title_chunk] ++ [IEND_chunk]).
Proof.
  intros Ex.
  destruct (extractChunks_canonical _ _ Ex) as (first & body & -> & Hh & Hb & He).
  exists first, body. split; [reflexivity|].
  change (first :: body ++ [IEND_chunk])
    with ((first :: body) ++ [IEND_chunk]) in *.
  split.
  - assert (Hen : encodeEntries (obj_set [] (lit "Title") (lit "x"))
                    (Object_keys (obj_set [] (lit "Title") (lit "x")))
                  = Return [title_chunk]) by reflexivity.
    unfold writeMetadata. rewrite Ex. cbn [bind].
    unfold insertMetadata. cbn [clear tEXt pHYs titleOnly].
    now rewrite (insertTexts_before_last _ _ (first :: body) IEND_chunk _ Hen).
  - apply canonical_roundtrip.
    exists first, (body ++ [title_chunk]).
    split; [now rewrite <- !app_assoc|]. split; [assumption|]. split.
    + apply Forall_app. split; [assumption|].
      constructor; [discriminate | constructor].
    + change (first :: body ++ [title_chunk])
        with ((first :: body) ++ [title_chunk]).
      apply Forall_app. split; [assumption|].
      constructor; [|constructor]. split.
      * exists [Byte.x74; Byte.x45; Byte.x58; Byte.x74]. now split.
      * cbn. lia.
Qed.

(** C8 (as the code has it). Take a well-formed PNG byte sequence.
    (1) When no [tEXt] chunk of it holds more than one 0x00 in its
        payload, [writeMetadata] with the single entry [Title = x] returns
        a buffer, [readMetadata] of that buffer succeeds, and its [tEXt]
        mapping has [x] under [Title], whatever entries were read before
        it.
    (2) When some [tEXt] chunk holds two or more 0x00 bytes,
        [writeMetadata] still returns a buffer, and [readMetadata] of it
        throws [InvalidCharacter]. *)
Theorem title_insert_read (ss : list StoredChunk) :
  well_formed_chunks crc32 ss ->
  (Forall singleNul ss ->
   exists out r t,
     writeMetadata crc32 (signature ++ flat_map stored_bytes ss) titleOnly
     = Return out /\
     readMetadata crc32 out = Return r /\
     tEXt r = Some t /\ obj_get t (lit "Title") = Some (lit "x"))
  /\
  (Exists (fun s => type_name s = tEXt_name /\ (2 <= nulCount (s_payload s))%nat)
          ss ->
   exists out,
     writeMetadata crc32 (signature ++ flat_map stored_bytes ss) titleOnly
     = Return out /\
     readMetadata crc32 out = Throw (InvalidCharacter NulInPayload)).
Proof.
  intros Hw.
  pose proof (extractChunks_well_formed crc32 ss Hw) as Ex.
  destruct (write_title _ _ Ex) as (first & body & Ecs & Hwrite & Hread).
  split.
  - intros Hs.
    assert (Hd : Forall (fun c => name c = tEXt_name ->
                                  (nulCount (data c) <= 1)%nat)
                        (first :: body)).
    { assert (Hall : Forall (fun c => name c = tEXt_name ->
                                      (nulCount (data c) <= 1)%nat)
                            (map chunk_of ss)).
      { apply Forall_forall. intros c Hc.
        apply in_map_iff in Hc as (s & <- & Hin).
        rewrite Forall_forall in Hs. exact (Hs s Hin). }
      rewrite Ecs in Hall. now apply Forall_app in Hall. }
    destruct (readChunks_single_nul _ Hd emptyMetadata) as [r1 Hr1].
    set (t1 := obj_set (match tEXt r1 with Some t => t | None => [] end)
                       (lit "Title") (lit "x")).
    exists (encodeChunks crc32 ((first :: body) ++ [title_chunk] ++ [IEND_chunk])),
           {| tEXt := Some t1; pHYs := pHYs r1; clear := clear r1;
              others := obj_set (others r1) IEND true |},
           t1.
    split; [exact Hwrite|].
    split; [|split; [reflexivity|apply obj_get_obj_set]].
    unfold readMetadata. rewrite Hread. cbn [bind].
    rewrite readChunks_app, Hr1. reflexivity.
  - intros Hex.
    exists (encodeChunks crc32 ((first :: body) ++ [title_chunk] ++ [IEND_chunk])).
    split; [exact Hwrite|].
    unfold readMetadata. rewrite Hread. cbn [bind].
    apply readChunks_doubled_nul.
    apply Exists_app. left.
    assert (Hall : Exists (fun c => name c = tEXt_name /\
                                    (2 <= nulCount (data c))%nat)
                          (map chunk_of ss)).
    { apply Exists_exists in Hex as (s & Hin & Hn & Hc).
      apply Exists_exists. exists (chunk_of s).
      split; [now apply in_map | now split]. }
    rewrite Ecs in Hall. apply Exists_app in Hall as [H|H]; [exact H|].
    inversion H as [? ? [Hn _]|? ? H']; [discriminate Hn | inversion H'].
Qed.

End MetadataMapper.
(** ** The sample files *)

Lemma sample_well_formed : well_formed_chunks Crc32.crc32 sample_stored.
Proof. well_formed_by_computation sample_IHDR [sample_IDAT] sample_IEND. Qed.

Lemma tagged_well_formed : well_formed_chunks Crc32.crc32 tagged_stored.
Proof.
  well_formed_by_computation sample_IHDR
    [stored_of Crc32.crc32 resolution_chunk; stored_of Crc32.crc32 author_chunk;
     sample_IDAT] sample_IEND.
Qed.

Lemma doubled_nul_well_formed :
  well_formed_chunks Crc32.crc32 doubled_nul_stored.
Proof.
  well_formed_by_computation sample_IHDR
    [stored_of Crc32.crc32 doubled_nul_chunk; sample_IDAT] sample_IEND.
Qed.

(** ** The properties at the sample files *)

Lemma roundtrip_identity_witness :
  exists chunks,
    extractChunks Crc32.crc32 sample_png = Return chunks /\
    encodeChunks Crc32.crc32 chunks = sample_png.
Proof.
  apply (roundtrip_identity Crc32.crc32 sample_png).
  exists sample_stored. split; [|reflexivity].
  well_formed_by_computation sample_IHDR [sample_IDAT] sample_IEND.
Defined.

(** A flipped bit in the payload of [IDAT]. *)
Lemma checksum_sensitivity_witness :
  extractChunks Crc32.crc32
    (signature ++ flat_map stored_bytes
       ([sample_IHDR] ++ corrupt sample_IDAT 40 :: [sample_IEND]))
  = Throw (ChecksumMismatch IDAT).
Proof.
  apply (checksum_sensitivity Crc32.crc32 [sample_IHDR] [sample_IEND]
           sample_IDAT 40 crc32_detects_bit_flips).
  - well_formed_by_computation sample_IHDR [sample_IDAT] sample_IEND.
  - cbn. lia.
Defined.

(** C2, as stated, fails: a flipped bit in the type of the first chunk of
    the sample image gives [MissingIHDR], not [ChecksumMismatch]. *)
Lemma checksum_sensitivity_fails_in_first_type :
  ~ stated_checksum_sensitivity Crc32.crc32 [] [sample_IDAT; sample_IEND]
      sample_IHDR 0.
Proof.
  intros H. destruct H as (t & Ht).
  - exact sample_well_formed.
  - cbn. lia.
  - vm_compute in Ht. discriminate Ht.
Qed.



Lemma text_roundtrip_witness :
  exists chunk,
    textEncode (lit "Title") (lit "x") tEXt_name = Return chunk /\
    textDecodeChunk chunk = Return (lit "Title", lit "x").
Proof.
  apply (text_roundtrip (lit "Title") (lit "x")).
  - repeat (constructor; [vm_compute; discriminate|]). constructor.
  - repeat (constructor; [vm_compute; discriminate|]). constructor.
  - intros H. vm_compute in H. intuition discriminate.
  - intros H. vm_compute in H. intuition discriminate.
  - cbn. lia.
Defined.

(** The rejections: a damaged header, a file that opens with [IDAT], a
    file whose [IHDR] chunk is cut short by the end of the buffer, and a
    file that ends after [IDAT]. *)
Lemma structural_rejection_witness :
  (exists i, firstMismatch signature damaged_header 0 = Some i /\
             extractChunks Crc32.crc32 damaged_header
             = Throw (InvalidHeader (Nat.eqb i 4 || Nat.eqb i 5 || Nat.eqb i 7)))
  /\
  extractChunks Crc32.crc32 (signature ++ stored_bytes sample_IDAT)
  = Throw MissingIHDR
  /\
  extractChunks Crc32.crc32 overrun_png = Throw TruncatedFile
  /\
  extractChunks Crc32.crc32
    (signature ++ flat_map stored_bytes [sample_IHDR; sample_IDAT])
  = Throw TruncatedFile.
Proof.
  split; [|split; [|split]].
  - apply (proj1 (structural_rejection Crc32.crc32 damaged_header)).
    intros E. vm_compute in E. discriminate E.
  - apply (proj2 (proj1 (proj2 (structural_rejection Crc32.crc32
                                  (signature ++ stored_bytes sample_IDAT))))).
    split; [reflexivity|]. split; [cbn; lia|].
    intros E. vm_compute in E. discriminate E.
  - apply (proj2 (proj1 (proj2 (proj2 (structural_rejection Crc32.crc32
                                         overrun_png))))).
    split; [reflexivity|].
    apply scan_chunk.
    + cbn. lia.
    + intros _. reflexivity.
    + other_type.
    + by_computation.
    + apply scan_end. vm_compute. lia.
  - apply (proj2 (proj2 (proj2 (structural_rejection Crc32.crc32
                                  (signature ++ flat_map stored_bytes
                                                  [sample_IHDR; sample_IDAT]))))
             [sample_IHDR; sample_IDAT]).
    + reflexivity.
    + repeat (constructor; [intact_by_computation|]). constructor.
    + repeat (constructor; [other_type|]). constructor.
    + reflexivity.
Defined.

(** C5, as stated, fails: bytes 0 and 4 both differ, the guard on byte 0
    fires first and the diagnosis is the plain one. *)
Lemma header_diagnosis_of_first_mismatch :
  ~ stated_header_rejection Crc32.crc32 damaged_header.
Proof.
  intros H.
  assert (E : firstn 8 damaged_header <> signature)
    by (intros E; vm_compute in E; discriminate E).
  specialize (H E). vm_compute in H. discriminate H.
Qed.

(** C6, as stated, fails: an empty keyword with a non-empty text meets
    none of the three stated failure conditions, and is rejected. *)
Lemma textEncode_rejects_empty_keyword : ~ stated_textEncode [] (lit "v").
Proof.
  intros (_ & _ & _ & H).
  assert (E : textEncode [] (lit "v") tEXt_name
              = Return {| name := tEXt_name;
                          data := map lowByte [] ++ [Byte.x00]
                                      ++ map lowByte (lit "v") |}).
  { apply H.
    - cbn. lia.
    - intros HI. vm_compute in HI. intuition discriminate.
    - intros [HE _]. inversion HE as [? ? H0|? ? H0]; subst.
      + vm_compute in H0. discriminate H0.
      + inversion H0. }
  vm_compute in E. discriminate E.
Qed.
(** Two text entries and a resolution, inserted into the chunks of the
    sample image: [Object.keys] lists [1] before [b]; and two entries of
    which the second does not encode. *)
Lemma insertMetadata_without_clear_witness :
  (exists out,
     insertMetadata [chunk_of sample_IHDR; chunk_of sample_IDAT; IEND_chunk]
                    sample_metadata
     = (out, Return tt) /\
     out = [chunk_of sample_IHDR;
            {| name := pHYs_name; data := physBytes sample_resolution |};
            chunk_of sample_IDAT;
            {| name := tEXt_name;
               data := map lowByte (lit "1") ++ [Byte.x00] ++ map lowByte (lit "y") |};
            {| name := tEXt_name;
               data := map lowByte (lit "b") ++ [Byte.x00] ++ map lowByte (lit "x") |};
            IEND_chunk])
  /\
  insertMetadata [chunk_of sample_IHDR; IEND_chunk]
                 (textsOnly unencodable_entries)
  = ([chunk_of sample_IHDR;
      {| name := tEXt_name;
         data := map lowByte (lit "a") ++ [Byte.x00] ++ map lowByte (lit "x") |};
      IEND_chunk],
     Throw (InvalidCharacter NotLatin1)).
Proof.
  split.
  - destruct (proj1 (insertMetadata_without_clear
                       [chunk_of sample_IHDR; chunk_of sample_IDAT; IEND_chunk]
                       sample_metadata eq_refl)
                [ {| name := tEXt_name;
                     data := map lowByte (lit "1") ++ [Byte.x00]
                                 ++ map lowByte (lit "y") |};
                  {| name := tEXt_name;
                     data := map lowByte (lit "b") ++ [Byte.x00]
                                 ++ map lowByte (lit "x") |} ]
                eq_refl) as (out & Ho & _ & Hp).
    exists out. split; [exact Ho|].
    apply Hp. repeat (constructor; [other_type|]). constructor.
  - exact (proj1 (proj2 (insertMetadata_without_clear
                           [chunk_of sample_IHDR; IEND_chunk]
                           (textsOnly unencodable_entries) eq_refl))
             (mappingOf unencodable_entries) [lit "a"] (lit "b") []
             [ {| name := tEXt_name;
                  data := map lowByte (lit "a") ++ [Byte.x00]
                              ++ map lowByte (lit "x") |} ]
             (InvalidCharacter NotLatin1)
             eq_refl eq_refl eq_refl eq_refl).
Defined.

(** C7, as stated, fails: the entries are placed in the order of
    [Object.keys], which is not the order of insertion when a key is an
    array index; and in an empty sequence the new [pHYs] chunk is at
    index 0. *)
Lemma insertion_order_and_position :
  ~ stated_text_insertion [chunk_of sample_IHDR; IEND_chunk] sample_entries /\
  ~ stated_phys_insertion [] sample_resolution.
Proof.
  split.
  - intros H.
    specialize (H [ {| name := tEXt_name;
                       data := map lowByte (lit "b") ++ [Byte.x00]
                                   ++ map lowByte (lit "x") |};
                    {| name := tEXt_name;
                       data := map lowByte (lit "1") ++ [Byte.x00]
                                   ++ map lowByte (lit "y") |} ] eq_refl).
    vm_compute in H. discriminate H.
  - intros H. specialize (H (Forall_nil _)). vm_compute in H. discriminate H.
Qed.

(** The sample image with a resolution and an [Author] entry, and the
    sample image with the text chunk that holds two 0x00 bytes. *)
Lemma title_insert_read_witness :
  (exists out r t,
     writeMetadata Crc32.crc32 tagged_png titleOnly = Return out /\
     readMetadata Crc32.crc32 out = Return r /\
     tEXt r = Some t /\ obj_get t (lit "Title") = Some (lit "x"))
  /\
  (exists out,
     writeMetadata Crc32.crc32 doubled_nul_png titleOnly = Return out /\
     readMetadata Crc32.crc32 out = Throw (InvalidCharacter NulInPayload)).
Proof.
  split.
  - apply (proj1 (title_insert_read Crc32.crc32 tagged_stored
                    ltac:(well_formed_by_computation sample_IHDR
                            [stored_of Crc32.crc32 resolution_chunk;
                             stored_of Crc32.crc32 author_chunk; sample_IDAT]
                            sample_IEND))).
    repeat (constructor;
            [intros E; first [vm_compute; lia | vm_compute in E; discriminate E]|]).
    constructor.
  - apply (proj2 (title_insert_read Crc32.crc32 doubled_nul_stored
                    ltac:(well_formed_by_computation sample_IHDR
                            [stored_of Crc32.crc32 doubled_nul_chunk; sample_IDAT]
                            sample_IEND))).
    apply Exists_cons_tl, Exists_cons_hd.
    split; [reflexivity | vm_compute; lia].
Defined.

(** C8, as stated, fails: the file is well formed, one of its [tEXt]
    payloads holds two 0x00 bytes, and reading the written file throws. *)
Lemma title_unreadable_after_doubled_nul :
  ~ stated_title_symmetry Crc32.crc32 doubled_nul_png.
Proof.
  intros H.
  destruct H as (out & r & t & Hw & Hr & _).
  - exists doubled_nul_stored. split; [|reflexivity].
    exact doubled_nul_well_formed.
  - vm_compute in Hw. injection Hw as <-.
    vm_compute in Hr. discriminate Hr.
Qed.

(** The sample image with the length field of [IEND] set to [0xffffffff],
    no checksum after its type and one stray byte instead. *)
Lemma iend_checksum_unchecked_witness :
  extractChunks Crc32.crc32
    (signature ++ flat_map stored_bytes [sample_IHDR; sample_IDAT]
               ++ [Byte.xff; Byte.xff; Byte.xff; Byte.xff]
               ++ [Byte.x49; Byte.x45; Byte.x4e; Byte.x44] ++ [Byte.x2a])
  = Return (map chunk_of [sample_IHDR; sample_IDAT]
              ++ [{| name := IEND; data := [] |}]).
Proof.
  apply (iend_checksum_unchecked Crc32.crc32 sample_IHDR [sample_IDAT]).
  - repeat (constructor; [intact_by_computation|]). constructor.
  - reflexivity.
  - repeat (constructor; [other_type|]). constructor.
  - reflexivity.
Defined.

Lemma textDecode_without_separator_witness :
  textDecode [Byte.x54; Byte.x69; Byte.x74; Byte.x6c; Byte.x65]
  = Return (lit "Title", []).
Proof.
  apply (textDecode_without_separator
           [Byte.x54; Byte.x69; Byte.x74; Byte.x6c; Byte.x65]).
  intros H. cbn in H. intuition discriminate.
Defined.
